(** * RecSysSolo: data loading and numeric downcasting

    A shallow embedding of [data_loading.py]: the type-selection helper
    [get_downcast_type], the in-place [downcast] of a table and the
    directory loader [load_data].

    Conventions of the embedding.
    - A Python exception is a value of [exception]; code that can raise
      returns a [result].  [try ... except Exception] is [try_except].
    - A table is a [DataFrame]: a row index and an ordered list of named
      columns.  The in-place mutation of [downcast] is explicit state
      passing: the function returns the table it leaves behind.
    - Floating-point numbers are the IEEE values of [SpecFloat]
      ([spec_float]), stored in the format of their column; a conversion
      between formats rounds to nearest, ties to even
      ([binary_normalize]).
    - Comparisons of numbers ([<=] in the source) are modelled by the
      exact order of the values they denote, as numpy 2 compares
      integers with integers and floating scalars with floating scalars;
      a NaN compares false with everything.  These are the comparisons
      [downcast] makes.  An integer compared with a floating scalar is
      first rounded by numpy to the floating type, which the exact order
      does not follow: statements that rest on the order of arbitrary
      scalars are made for operands of one kind ([one_kind]).
    - The dtypes covered are the signed and unsigned integers of 1, 2, 4
      and 8 bytes, the floats of 2, 4 and 8 bytes, bool and object.
    - The functions are embedded as called with [verbose] at its default
      [False]; the optional progress text is not part of the
      embedding. *)

From Stdlib Require Import ZArith Lia Strings.Ascii Floats.SpecFloat.
From stdpp Require Import base option list gmap strings sorting.

Local Open Scope Z_scope.

(** ** Scalars and exceptions *)

Inductive scalar :=
| SInt (z : Z)              (* Python int or numpy integer scalar *)
| SFloat (f : spec_float)   (* numpy floating scalar, NaN included *)
| SBool (b : bool).         (* numpy bool scalar *)

Inductive message :=
| NoSuitableDtype (c_min c_max : scalar)
| DataPathNotFound (data_path : string)
| NoObjectsToConcatenate
| NonFiniteToInteger
| Other (text : string).

Inductive exception :=
| ValueError (msg : message)
| AssertionError (msg : message)
| FileNotFoundError (path : string)
| NotADirectoryError (path : string)
| IsADirectoryError (path : string)
| KeyError (key : string)
| ParserError (msg : message).

Inductive result (A : Type) :=
| Ok (a : A)
| Raise (e : exception).
Arguments Ok {A} a.
Arguments Raise {A} e.

Global Instance result_ret : MRet result := fun A a => Ok a.

Global Instance result_bind : MBind result := fun A B k r =>
  match r with
  | Ok a => k a
  | Raise e => Raise e
  end.

(** [try: body except Exception as e: handler]. *)
Definition try_except {A} (body : result A) (handler : exception -> result A)
  : result A :=
  match body with
  | Ok a => Ok a
  | Raise e => handler e
  end.

(** ** Numeric types *)

Inductive int_type :=
| int8 | int16 | int32 | int64 | uint8 | uint16 | uint32 | uint64.

Inductive float_type := float16 | float32 | float64.

(** The numpy types that have an [iinfo] or a [finfo]. *)
Inductive numtype :=
| Integer (t : int_type)
| Floating (t : float_type).

Inductive dtype :=
| Num (t : numtype)
| Bool
| Object.

Global Instance int_type_eq_dec : EqDecision int_type.
Proof. solve_decision. Defined.
Global Instance float_type_eq_dec : EqDecision float_type.
Proof. solve_decision. Defined.
Global Instance numtype_eq_dec : EqDecision numtype.
Proof. solve_decision. Defined.
Global Instance dtype_eq_dec : EqDecision dtype.
Proof. solve_decision. Defined.

Definition int_itemsize (t : int_type) : Z :=
  match t with
  | int8 | uint8 => 1
  | int16 | uint16 => 2
  | int32 | uint32 => 4
  | int64 | uint64 => 8
  end.

Definition is_signed (t : int_type) : bool :=
  match t with
  | int8 | int16 | int32 | int64 => true
  | _ => false
  end.

Definition float_itemsize (t : float_type) : Z :=
  match t with
  | float16 => 2
  | float32 => 4
  | float64 => 8
  end.

Definition itemsize (t : numtype) : Z :=
  match t with
  | Integer t => int_itemsize t
  | Floating t => float_itemsize t
  end.

(** Precision and exponent bound of the IEEE binary formats. *)
Definition float_prec (t : float_type) : Z :=
  match t with
  | float16 => 11
  | float32 => 24
  | float64 => 53
  end.

Definition float_emax (t : float_type) : Z :=
  match t with
  | float16 => 16
  | float32 => 128
  | float64 => 1024
  end.

(** ** [np.iinfo] and [np.finfo] *)

Record type_info := { info_min : scalar; info_max : scalar }.

Definition int_min (t : int_type) : Z :=
  if is_signed t then - 2 ^ (8 * int_itemsize t - 1) else 0.

Definition int_max (t : int_type) : Z :=
  if is_signed t then 2 ^ (8 * int_itemsize t - 1) - 1
  else 2 ^ (8 * int_itemsize t) - 1.

Definition iinfo (t : int_type) : type_info :=
  {| info_min := SInt (int_min t); info_max := SInt (int_max t) |}.

(** The largest finite value of a format: mantissa of [prec] ones at the
    top exponent. *)
Definition float_max (t : float_type) : spec_float :=
  S754_finite false (Z.to_pos (2 ^ float_prec t - 1))
              (float_emax t - float_prec t).

Definition finfo (t : float_type) : type_info :=
  {| info_min := SFloat (SFopp (float_max t));
     info_max := SFloat (float_max t) |}.

(** ** The order on scalars *)

(** The value a scalar denotes: a dyadic number [m * 2 ^ e], an infinity
    or no number. *)
Inductive ext :=
| ENaN
| ENegInf
| EPosInf
| EFin (m e : Z).

Definition float_ext (f : spec_float) : ext :=
  match f with
  | S754_zero _ => EFin 0 0
  | S754_infinity s => if s then ENegInf else EPosInf
  | S754_nan => ENaN
  | S754_finite s m e => EFin (cond_Zopp s (Zpos m)) e
  end.

Definition scalar_ext (x : scalar) : ext :=
  match x with
  | SInt z => EFin z 0
  | SFloat f => float_ext f
  | SBool b => EFin (Z.b2z b) 0
  end.

Definition ext_le (a b : ext) : bool :=
  match a, b with
  | ENaN, _ | _, ENaN => false
  | ENegInf, _ => true
  | _, EPosInf => true
  | EPosInf, _ => false
  | _, ENegInf => false
  | EFin m1 e1, EFin m2 e2 =>
      let e := Z.min e1 e2 in
      m1 * 2 ^ (e1 - e) <=? m2 * 2 ^ (e2 - e)
  end.

(** [a <= b] of the source, as the exact order of the two values.  That
    is what numpy computes for operands of one kind (integers, or numpy
    floating scalars), which are the comparisons [downcast] makes.  Where
    one operand is an integer and the other a floating scalar, numpy
    first rounds the integer to the floating type; the exact order does
    not follow that rounding. *)
Definition scalar_le (a b : scalar) : bool :=
  ext_le (scalar_ext a) (scalar_ext b).

(** ** [get_downcast_type] *)

Definition type_info_of (dtype : numtype) : type_info :=
  match dtype with
  | Integer t => iinfo t       (* np.issubdtype(dtype, np.integer) *)
  | Floating t => finfo t
  end.

(** The test of the loop body. *)
Definition fits (dtype : numtype) (c_min c_max : scalar) : bool :=
  let dtype_info := type_info_of dtype in
  scalar_le (info_min dtype_info) c_min && scalar_le c_max (info_max dtype_info).

Definition item_le {T} (a b : Z * T) : Prop := a.1 <= b.1.

Global Instance item_le_dec {T} (a b : Z * T) : Decision (item_le a b).
Proof. unfold item_le. apply _. Defined.

(** [sorted(type_map.items())]: a dict has one entry per key, so the
    tuples are ordered by their size alone. *)
Definition sorted_items {T} (type_map : gmap Z T) : list (Z * T) :=
  merge_sort item_le (map_to_list type_map).

Fixpoint first_fit (items : list (Z * numtype)) (c_min c_max : scalar)
  : result numtype :=
  match items with
  | [] => Raise (ValueError (NoSuitableDtype c_min c_max))
  | (size, dtype) :: rest =>
      if fits dtype c_min c_max then Ok dtype
      else first_fit rest c_min c_max
  end.

Definition get_downcast_type (type_map : gmap Z numtype) (c_min c_max : scalar)
  : result numtype :=
  first_fit (sorted_items type_map) c_min c_max.

Definition map_int : gmap Z numtype :=
  {[ 1 := Integer int8; 2 := Integer int16; 4 := Integer int32;
     8 := Integer int64 ]}.

Definition map_float : gmap Z numtype :=
  {[ 2 := Floating float16; 4 := Floating float32; 8 := Floating float64 ]}.

(** ** Columns *)

(** Numeric data: what [is_numeric_dtype] accepts. *)
Inductive ndarray :=
| Ints (t : int_type) (xs : list Z)
| Floats (t : float_type) (xs : list spec_float)
| Bools (xs : list bool).

(** A column is numeric data or an object column, as [read_csv] makes it
    from text: a cell is a string, or [None] where the value is missing. *)
Inductive Series :=
| Numeric (a : ndarray)
| Text (cells : list (option string)).

Definition array_dtype (a : ndarray) : dtype :=
  match a with
  | Ints t _ => Num (Integer t)
  | Floats t _ => Num (Floating t)
  | Bools _ => Bool
  end.

Definition Series_dtype (s : Series) : dtype :=
  match s with
  | Numeric a => array_dtype a
  | Text _ => Object
  end.

Definition array_length (a : ndarray) : nat :=
  match a with
  | Ints _ xs => length xs
  | Floats _ xs => length xs
  | Bools xs => length xs
  end.

Definition Series_length (s : Series) : nat :=
  match s with
  | Numeric a => array_length a
  | Text cells => length cells
  end.

Definition is_integer_dtype (a : ndarray) : bool :=
  match a with
  | Ints _ _ => true
  | _ => false
  end.

Definition is_float_dtype (a : ndarray) : bool :=
  match a with
  | Floats _ _ => true
  | _ => false
  end.

(** *** Reductions: [Series.min] and [Series.max] *)

Definition nan : scalar := SFloat S754_nan.

Definition is_nan (f : spec_float) : bool :=
  match f with
  | S754_nan => true
  | _ => false
  end.

Definition float_le (a b : spec_float) : bool :=
  ext_le (float_ext a) (float_ext b).

(** Missing values (NaN) are skipped; the result is NaN when nothing is
    left. *)
Definition nanmin (xs : list spec_float) : spec_float :=
  foldr (fun x acc =>
           if is_nan x then acc
           else if is_nan acc then x
           else if float_le x acc then x else acc) S754_nan xs.

Definition nanmax (xs : list spec_float) : spec_float :=
  foldr (fun x acc =>
           if is_nan x then acc
           else if is_nan acc then x
           else if float_le acc x then x else acc) S754_nan xs.

(** The reduction of an empty column is NaN. *)
Definition array_min (a : ndarray) : scalar :=
  match a with
  | Ints _ [] => nan
  | Ints _ (x :: xs) => SInt (foldr Z.min x xs)
  | Floats _ xs => SFloat (nanmin xs)
  | Bools [] => nan
  | Bools xs => SBool (forallb id xs)
  end.

Definition array_max (a : ndarray) : scalar :=
  match a with
  | Ints _ [] => nan
  | Ints _ (x :: xs) => SInt (foldr Z.max x xs)
  | Floats _ xs => SFloat (nanmax xs)
  | Bools [] => nan
  | Bools xs => SBool (existsb id xs)
  end.

(** *** Conversions: [Series.astype] *)

(** Two's-complement wrap-around of an integer into a width. *)
Definition wrap (t : int_type) (z : Z) : Z :=
  let w := 8 * int_itemsize t in
  if is_signed t then (z + 2 ^ (w - 1)) mod 2 ^ w - 2 ^ (w - 1)
  else z mod 2 ^ w.

(** Rounding of a floating value into a format. *)
Definition round_to (t : float_type) (f : spec_float) : spec_float :=
  match f with
  | S754_finite s m e =>
      binary_normalize (float_prec t) (float_emax t) (cond_Zopp s (Zpos m)) e s
  | _ => f
  end.

Definition float_of_Z (t : float_type) (z : Z) : spec_float :=
  binary_normalize (float_prec t) (float_emax t) z 0 false.

Definition is_finite (f : spec_float) : bool :=
  match f with
  | S754_zero _ | S754_finite _ _ _ => true
  | _ => false
  end.

(** Truncation toward zero. *)
Definition float_trunc (f : spec_float) : Z :=
  match f with
  | S754_finite s m e =>
      cond_Zopp s (if 0 <=? e then Zpos m * 2 ^ e else Zpos m / 2 ^ (- e))
  | _ => 0
  end.

(** A conversion to the type the data already has changes nothing.
    Floating data with a NaN or an infinity does not convert to an
    integer type; for a finite value out of the integer type's range the
    wrap-around of the truncated value is what is modelled. *)
Definition astype (a : ndarray) (t : numtype) : result ndarray :=
  if decide (array_dtype a = Num t) then Ok a
  else
    match a, t with
    | Ints _ xs, Integer t' => Ok (Ints t' (map (wrap t') xs))
    | Ints _ xs, Floating t' => Ok (Floats t' (map (float_of_Z t') xs))
    | Floats _ xs, Floating t' => Ok (Floats t' (map (round_to t') xs))
    | Floats _ xs, Integer t' =>
        if forallb is_finite xs
        then Ok (Ints t' (map (fun f => wrap t' (float_trunc f)) xs))
        else Raise (ValueError NonFiniteToInteger)
    | Bools xs, Integer t' => Ok (Ints t' (map Z.b2z xs))
    | Bools xs, Floating t' =>
        Ok (Floats t' (map (fun b => float_of_Z t' (Z.b2z b)) xs))
    end.

(** ** Tables *)

Record DataFrame := {
  index : list Z;                      (* row labels *)
  columns : list (string * Series)     (* named columns, in order *)
}.

Definition names (df : DataFrame) : list string := (columns df).*1.

Definition nrows (df : DataFrame) : nat := length (index df).

(** What [df[c]] is: a column when one column has that name, a sub-table
    when several have. *)
Inductive item :=
| ASeries (s : Series)
| AFrame (cols : list (string * Series)).

Definition getitem (df : DataFrame) (c : string) : result item :=
  match filter (fun p => p.1 = c) (columns df) with
  | [] => Raise (KeyError c)
  | [p] => Ok (ASeries p.2)
  | ps => Ok (AFrame ps)
  end.

(** A sub-table has no dtype of its own and is not numeric. *)
Definition is_numeric_dtype (x : item) : bool :=
  match x with
  | ASeries (Numeric _) => true
  | _ => false
  end.

(** [df[c] = s] for a column of the table's own length: the columns
    named [c] are replaced, a new name is added as the last column. *)
Definition setitem (df : DataFrame) (c : string) (s : Series) : DataFrame :=
  {| index := index df;
     columns :=
       if decide (c ∈ names df)
       then map (fun p => if decide (p.1 = c) then (c, s) else p) (columns df)
       else columns df ++ [(c, s)] |}.

(** ** [downcast] *)

(** The body of the loop for the column named [c]. *)
Definition downcast_column (df : DataFrame) (c : string) : result DataFrame :=
  x ← getitem df c;
  match x with
  | ASeries (Numeric a) =>            (* is_numeric_dtype(df[c]) *)
      try_except
        (let c_min := array_min a in
         let c_max := array_max a in
         if is_integer_dtype a && negb (is_float_dtype a) then
           t ← get_downcast_type map_int c_min c_max;
           a' ← astype a t;
           mret (setitem df c (Numeric a'))
         else if is_float_dtype a then
           t ← get_downcast_type map_float c_min c_max;
           a' ← astype a t;
           mret (setitem df c (Numeric a'))
         else mret df)
        (fun e => mret df)
  | _ => mret df                      (* skipped *)
  end.

Fixpoint downcast_loop (cols : list string) (df : DataFrame)
  : result DataFrame :=
  match cols with
  | [] => mret df
  | c :: rest => df' ← downcast_column df c; downcast_loop rest df'
  end.

(** The table is changed in place; the result is the table as the call
    leaves it. *)
Definition downcast (df : DataFrame) : result DataFrame :=
  let cols := names df in
  downcast_loop cols df.

(** ** The file system and [pd.read_csv] *)

(** A path names a directory with its entries, or a file.  A file stands
    for what [pd.read_csv(path, delimiter='\t')] makes of it: the parsed
    table (header row as column names, rows labelled from 0), or the
    parser's failure. *)
Inductive node :=
| Directory (entries : list string)
| File (parsed : result DataFrame).

Abbreviation FileSystem := (gmap string node).

(** Directory listings and file reads, in the order they happen. *)
Inductive access :=
| ListDir (path : string)
| ReadCsv (path : string).

Definition path_exists (fs : FileSystem) (path : string) : bool :=
  bool_decide (is_Some (fs !! path)).

Definition listdir (fs : FileSystem) (path : string) : result (list string) :=
  match fs !! path with
  | Some (Directory entries) => Ok entries
  | Some (File _) => Raise (NotADirectoryError path)
  | None => Raise (FileNotFoundError path)
  end.

Definition read_csv (fs : FileSystem) (path : string) : result DataFrame :=
  match fs !! path with
  | Some (File parsed) => parsed
  | Some (Directory _) => Raise (IsADirectoryError path)
  | None => Raise (FileNotFoundError path)
  end.

Definition starts_with_sep (s : string) : bool :=
  match s with
  | String c _ => Ascii.eqb c "/"%char
  | EmptyString => false
  end.

Fixpoint ends_with_sep (s : string) : bool :=
  match s with
  | EmptyString => false
  | String c EmptyString => Ascii.eqb c "/"%char
  | String _ rest => ends_with_sep rest
  end.

(** [os.path.join(a, b)]. *)
Definition path_join (a b : string) : string :=
  if starts_with_sep b then b
  else if bool_decide (a = EmptyString) || ends_with_sep a then a +:+ b
  else a +:+ "/" +:+ b.

(** ** [pd.concat(objs, ignore_index=True)] *)

(** Columns of one dtype are stacked by appending their values. *)
Definition Series_append (s1 s2 : Series) : option Series :=
  match s1, s2 with
  | Numeric (Ints t xs), Numeric (Ints t' ys) =>
      if decide (t = t') then Some (Numeric (Ints t (xs ++ ys))) else None
  | Numeric (Floats t xs), Numeric (Floats t' ys) =>
      if decide (t = t') then Some (Numeric (Floats t (xs ++ ys))) else None
  | Numeric (Bools xs), Numeric (Bools ys) => Some (Numeric (Bools (xs ++ ys)))
  | Text xs, Text ys => Some (Text (xs ++ ys))
  | _, _ => None
  end.

(** The part of a table that goes into the result column [c]: its column
    of that name, if it has one, and its number of rows. *)
Definition piece (c : string) (df : DataFrame) : option Series * nat :=
  (snd <$> head (filter (fun p => p.1 = c) (columns df)), nrows df).

Fixpoint stack_alike (pieces : list (option Series * nat)) : option Series :=
  match pieces with
  | [] => None
  | (None, _) :: _ => None
  | (Some s, _) :: rest =>
      match rest with
      | [] => Some s
      | _ => s' ← stack_alike rest; Series_append s s'
      end
  end.

(** The result's column names: those of the tables in order of first
    appearance. *)
Definition union_names (objs : list DataFrame) : list string :=
  foldl (fun acc df => acc ++ filter (fun c => c ∉ acc) (names df)) [] objs.

Section Concat.
(** What the engine makes of pieces that differ in dtype, or of which
    some are missing (and filled with missing values), is its own
    promotion rule; it is a parameter of the embedding. *)
Variable promote : list (option Series * nat) -> Series.

Definition stack (pieces : list (option Series * nat)) : Series :=
  default (promote pieces) (stack_alike pieces).

(** The tables are those [read_csv] delivers: the column names of a
    table are distinct. *)
Definition concat (objs : list DataFrame) : result DataFrame :=
  match objs with
  | [] => Raise (ValueError NoObjectsToConcatenate)
  | _ =>
      Ok {| index := seqZ 0 (Z.of_nat (sum_list (nrows <$> objs)));
            columns :=
              map (fun c => (c, stack (piece c <$> objs)))
                  (union_names objs) |}
  end.

(** ** [load_data] *)

(** The loop over the directory's entries: [dataframes] is the list
    built so far, [log] the accesses made so far. *)
Fixpoint load_loop (fs : FileSystem) (data_path : string)
         (cvs_files : list string) (dataframes : list DataFrame)
         (log : list access) : result (list DataFrame) * list access :=
  match cvs_files with
  | [] => (Ok dataframes, log)
  | file :: rest =>
      let csv_file := path_join data_path file in
      match read_csv fs csv_file with
      | Ok df =>
          load_loop fs data_path rest (dataframes ++ [df])
                    (log ++ [ReadCsv csv_file])
      | Raise e => (Raise e, log ++ [ReadCsv csv_file])
      end
  end.

(** The outcome of the call and the accesses it made. *)
Definition load_data (fs : FileSystem) (data_path : string)
  : result DataFrame * list access :=
  if negb (path_exists fs data_path)
  then (Raise (AssertionError (DataPathNotFound data_path)), [])
  else
    match listdir fs data_path with
    | Raise e => (Raise e, [ListDir data_path])
    | Ok cvs_files =>
        let '(dataframes, log) :=
          load_loop fs data_path cvs_files [] [ListDir data_path] in
        (dfs ← dataframes; concat dfs, log)
    end.
End Concat.

(** * Vocabulary of the properties *)

(** ** What [downcast] does to one column *)

(** The [try] block on the column's data: the type selected for its
    range and the conversion to it. *)
Definition narrowed (a : ndarray) : result ndarray :=
  if is_integer_dtype a && negb (is_float_dtype a) then
    t ← get_downcast_type map_int (array_min a) (array_max a); astype a t
  else if is_float_dtype a then
    t ← get_downcast_type map_float (array_min a) (array_max a); astype a t
  else Ok a.

(** The column as one pass of the loop body leaves it. *)
Definition downcast_series (s : Series) : Series :=
  match s with
  | Numeric a =>
      match narrowed a with
      | Ok a' => Numeric a'
      | Raise _ => s
      end
  | Text _ => s
  end.

(** The catalog the loop body searches for a column, if it searches. *)
Definition catalog (a : ndarray) : option (gmap Z numtype) :=
  match a with
  | Ints _ _ => Some map_int
  | Floats _ _ => Some map_float
  | Bools _ => None
  end.

(** How many columns of the table are named [c]. *)
Definition occurrences (c : string) (df : DataFrame) : nat :=
  length (filter (fun p => p.1 = c) (columns df)).

Definition narrow_where (P : string -> Prop) `{forall c, Decision (P c)}
           (df : DataFrame) : DataFrame :=
  {| index := index df;
     columns :=
       map (fun p => if decide (P p.1) then (p.1, downcast_series p.2) else p)
           (columns df) |}.

(** The table [downcast] leaves: every column whose name is its own is
    narrowed. *)
Definition downcast_result (df : DataFrame) : DataFrame :=
  narrow_where (fun c => occurrences c df = 1%nat) df.

(** ** Well-formed tables *)

Definition in_range (t : int_type) (z : Z) : Prop :=
  int_min t <= z <= int_max t.

(** The values of a column are values of its dtype. *)
Definition wf_array (a : ndarray) : Prop :=
  match a with
  | Ints t xs => Forall (in_range t) xs
  | Floats t xs =>
      Forall (fun f => valid_binary (float_prec t) (float_emax t) f = true) xs
  | Bools _ => True
  end.

Definition wf_Series (s : Series) : Prop :=
  match s with
  | Numeric a => wf_array a
  | Text _ => True
  end.

(** Every column has one value per row and holds values of its dtype. *)
Definition wf_DataFrame (df : DataFrame) : Prop :=
  Forall (fun p => Series_length p.2 = nrows df /\ wf_Series p.2) (columns df).

(** The width in bytes of a dtype's values: a flag takes one byte, an
    object column holds references. *)
Definition dtype_itemsize (d : dtype) : Z :=
  match d with
  | Num t => itemsize t
  | Bool => 1
  | Object => 8
  end.

Definition is_unsigned_dtype (a : ndarray) : bool :=
  match a with
  | Ints t _ => negb (is_signed t)
  | _ => false
  end.

Definition is_floating (d : dtype) : bool :=
  match d with
  | Num (Floating _) => true
  | _ => false
  end.

(** The range of a dtype contains the pair. *)
Definition range_contains (d : dtype) (lo hi : scalar) : Prop :=
  match d with
  | Num t => fits t lo hi = true
  | Bool => scalar_le (SBool false) lo = true /\ scalar_le hi (SBool true) = true
  | Object => False
  end.

Definition is_finite_scalar (x : scalar) : bool :=
  match x with
  | SFloat f => is_finite f
  | _ => true
  end.

(** ** Sample tables *)

(** 1.5 and 2.5. *)
Definition one_and_half : spec_float := S754_finite false 6755399441055744 (-52).
Definition two_and_half : spec_float := S754_finite false 5629499534213120 (-51).

(** The float64 nearest to 0.1. *)
Definition tenth : spec_float := S754_finite false 7205759403792794 (-56).

(** The float64 next above 65504, the largest float16. *)
Definition above_float16_max : spec_float :=
  S754_finite false 9002801208229889 (-37).

Definition sample_mixed : DataFrame :=
  {| index := [0; 1];
     columns :=
       [("user", Numeric (Ints int64 [-100; 100]));
        ("clicks", Numeric (Ints int64 [0; 1000000]));
        ("score", Numeric (Floats float64 [one_and_half; two_and_half]));
        ("name", Text [Some "ann"; None]);
        ("seen", Numeric (Bools [true; false]))] |}.

Definition sample_infinite : DataFrame :=
  {| index := [0];
     columns := [("ratio", Numeric (Floats float64 [S754_infinity false]))] |}.

Definition sample_tenth : DataFrame :=
  {| index := [0];
     columns := [("rate", Numeric (Floats float64 [tenth]));
                 ("level", Numeric (Ints uint8 [200]))] |}.

Definition sample_above : DataFrame :=
  {| index := [0];
     columns := [("price", Numeric (Floats float64 [above_float16_max]))] |}.

Definition sample_beyond : DataFrame :=
  {| index := [0];
     columns := [("id", Numeric (Ints uint64 [9223372036854775808]));
                 ("rank", Numeric (Ints int64 [1]))] |}.

(** ** Vocabulary of the loader *)


(** The accesses of a complete load: the listing, then one read per
    entry, in listing order. *)
Definition full_log (data_path : string) (cvs_files : list string)
  : list access :=
  ListDir data_path :: ((fun file => ReadCsv (path_join data_path file)) <$> cvs_files).

Definition sample_january : DataFrame :=
  {| index := [0; 1];
     columns := [("user", Numeric (Ints int64 [1; 2]));
                 ("city", Text [Some "oslo"; None])] |}.

Definition sample_february : DataFrame :=
  {| index := [0];
     columns := [("city", Text [Some "rome"]);
                 ("user", Numeric (Ints int64 [3]))] |}.

Definition sample_fs : FileSystem :=
  {[ "data" := Directory ["jan.tsv"; "feb.tsv"];
     "data/jan.tsv" := File (Ok sample_january);
     "data/feb.tsv" := File (Ok sample_february);
     "empty" := Directory [] ]}.

(** A promotion rule to run the loader with: every cell missing. *)
Definition sample_promote (pieces : list (option Series * nat)) : Series :=
  Text (replicate (sum_list pieces.*2) None).

(** ** Types that hold the values of a column *)

(** An integer type holds the values of a column that has a value. *)
Definition holds_ints (t : int_type) (xs : list Z) : Prop :=
  xs <> [] /\ Forall (in_range t) xs.

(** A floating type holds the values of a column when one of them is not
    missing and those that are not missing lie within the type's [finfo]
    range. *)
Definition holds_floats (t : float_type) (xs : list spec_float) : Prop :=
  (exists x, x ∈ xs /\ is_nan x = false) /\
  forall x, x ∈ xs -> is_nan x = false ->
            float_le (SFopp (float_max t)) x = true /\
            float_le x (float_max t) = true.

(** ** More sample data *)

Definition sample_shared : DataFrame :=
  {| index := [0];
     columns := [("visits", Numeric (Ints int64 [1]));
                 ("visits", Numeric (Ints int64 [2]))] |}.

Definition sample_no_rows : DataFrame :=
  {| index := [];
     columns := [("user", Numeric (Ints int64 []));
                 ("score", Numeric (Floats float64 []));
                 ("name", Text [])] |}.

Definition sample_march : DataFrame :=
  {| index := [0];
     columns := [("user", Numeric (Ints int64 [4]));
                 ("device", Text [Some "phone"])] |}.

(** A directory with an entry the parser rejects between two it accepts,
    one whose files differ in their columns, and one with a single
    file. *)
Definition sample_fs_more : FileSystem :=
  {[ "broken" := Directory ["jan.tsv"; "bad.tsv"; "feb.tsv"];
     "broken/jan.tsv" := File (Ok sample_january);
     "broken/bad.tsv" := File (Raise (ParserError (Other "bad line")));
     "broken/feb.tsv" := File (Ok sample_february);
     "mixed" := Directory ["jan.tsv"; "mar.tsv"];
     "mixed/jan.tsv" := File (Ok sample_january);
     "mixed/mar.tsv" := File (Ok sample_march);
     "single" := Directory ["jan.tsv"];
     "single/jan.tsv" := File (Ok sample_january);
     "notes.txt" := File (Ok sample_january) ]}.

(** ** Shifting a mantissa *)

(** What [n] steps of shifting leave: the quotient, and flags that are
    both down exactly when they were and nothing was shifted out. *)
Definition shifts (f : shr_record -> shr_record) (n : Z) : Prop :=
  forall m r s,
    0 <= m ->
    exists r' s',
      f {| shr_m := m; shr_r := r; shr_s := s |} =
        {| shr_m := m / 2 ^ n; shr_r := r'; shr_s := s' |} /\
      (r' || s' = false <-> r || s = false /\ m mod 2 ^ n = 0).

(** ** Numbers a format can hold exactly *)

(** Two floating values denote the same number. *)
Definition same_number (x y : spec_float) : Prop :=
  float_le x y = true /\ float_le y x = true.

(** A value of the format denotes the same number as [x]. *)
Definition representable (t : float_type) (x : spec_float) : Prop :=
  exists g, valid_binary (float_prec t) (float_emax t) g = true /\
            same_number x g.

(** ** Columns of one dtype, names in order of appearance *)


(** The names of a list at their first occurrence: a name is kept unless
    it is among those [seen]. *)
Fixpoint unseen (seen l : list string) : list string :=
  match l with
  | [] => []
  | c :: rest =>
      if decide (c ∈ seen) then unseen seen rest
      else c :: unseen (c :: seen) rest
  end.

Definition first_occurrences (l : list string) : list string := unseen [] l.

(** What a table contributes to the column [c] of a concatenation: its
    column of that name, or a gap, with its number of rows. *)
Definition contributes (c : string) (df : DataFrame)
           (p : option Series * nat) : Prop :=
  p.2 = nrows df /\
  match p.1 with
  | Some s => (c, s) ∈ columns df
  | None => c ∉ names df
  end.

(** ** Comparisons of one kind *)

Definition is_integer_scalar (x : scalar) : bool :=
  match x with
  | SInt _ => true
  | _ => false
  end.

Definition is_floating_scalar (x : scalar) : bool :=
  match x with
  | SFloat _ => true
  | _ => false
  end.

Definition is_integer_type (t : numtype) : bool :=
  match t with
  | Integer _ => true
  | Floating _ => false
  end.

(** The mapping and the scalars are of one kind: integer types with
    integers, or floating types with numpy floating scalars.  These are
    the comparisons numpy makes exactly. *)
Definition one_kind (type_map : gmap Z numtype) (xs : list scalar) : Prop :=
  (map_Forall (fun _ t => is_integer_type t = true) type_map /\
   Forall (fun x => is_integer_scalar x = true) xs) \/
  (map_Forall (fun _ t => is_integer_type t = false) type_map /\
   Forall (fun x => is_floating_scalar x = true) xs).

(** * Properties *)

(** ** The error monad *)

Lemma bind_Ok {A B} (r : result A) (k : A -> result B) (b : B) :
  r ≫= k = Ok b <-> exists a, r = Ok a /\ k a = Ok b.
Proof.
  destruct r as [a|e]; simpl.
  - split; [eauto | by intros (? & [= ->] & ?)].
  - split; [done | by intros (? & ? & ?)].
Qed.

(** ** Type selection *)

Section first_fit.
Variables c_min c_max : scalar.

Global Instance item_le_trans {T} : Transitive (@item_le T).
Proof. intros x y z. unfold item_le. lia. Qed.

Global Instance item_le_total {T} : Total (@item_le T).
Proof. intros x y. unfold item_le. lia. Qed.

Lemma elem_of_sorted_items {T} (type_map : gmap Z T) size dtype :
  (size, dtype) ∈ sorted_items type_map <-> type_map !! size = Some dtype.
Proof.
  unfold sorted_items. rewrite merge_sort_Permutation.
  apply elem_of_map_to_list.
Qed.

Lemma sorted_items_sorted {T} (type_map : gmap Z T) :
  StronglySorted item_le (sorted_items type_map).
Proof. apply StronglySorted_merge_sort; apply _. Qed.

Lemma sorted_items_NoDup {T} (type_map : gmap Z T) :
  NoDup (sorted_items type_map).*1.
Proof.
  unfold sorted_items. rewrite merge_sort_Permutation.
  apply NoDup_fst_map_to_list.
Qed.

(** In a list in ascending order of distinct sizes, the scan yields the
    fitting entry below which nothing fits. *)
Lemma first_fit_Ok items dtype :
  StronglySorted item_le items -> NoDup items.*1 ->
  first_fit items c_min c_max = Ok dtype <->
  exists size, (size, dtype) ∈ items /\ fits dtype c_min c_max = true /\
    forall size' dtype', (size', dtype') ∈ items -> size' < size ->
      fits dtype' c_min c_max = false.
Proof.
  induction items as [|[k t] rest IH]; intros Hsorted Hnodup; simpl.
  - split; [done | intros (? & Hin & _); by apply elem_of_nil in Hin].
  - apply StronglySorted_inv in Hsorted as [Hrest Hhd].
    apply NoDup_cons in Hnodup as [Hk Hnodup].
    rewrite Forall_forall in Hhd.
    destruct (fits t c_min c_max) eqn:Ht.
    + split.
      * intros [= <-]. exists k. split; [left | split; [done|]].
        intros size' dtype' [[= -> ->]|Hin]%elem_of_cons Hlt; [lia|].
        apply Hhd in Hin. unfold item_le in Hin; simpl in Hin. lia.
      * intros (size & [[= -> ->]|Hin]%elem_of_cons & Hfit & Hbelow); [done|].
        assert (k < size).
        { assert (k <= size) by (apply Hhd in Hin; exact Hin).
          assert (k <> size); [|lia].
          intros ->. apply Hk. apply list_elem_of_fmap. by exists (size, dtype). }
        rewrite (Hbelow k t) in Ht; [done | left | done].
    + rewrite (IH Hrest Hnodup). split.
      * intros (size & Hin & Hfit & Hbelow). exists size.
        split; [by right | split; [done|]].
        intros size' dtype' [[= -> ->]|Hin']%elem_of_cons Hlt; eauto.
      * intros (size & [[= -> ->]|Hin]%elem_of_cons & Hfit & Hbelow);
          [congruence|].
        exists size. split; [done | split; [done|]].
        intros size' dtype' Hin' Hlt. apply (Hbelow size'); [by right | done].
Qed.

(** The scan fails, and then with the range it was given, exactly when
    nothing fits. *)
Lemma first_fit_Raise items e :
  first_fit items c_min c_max = Raise e <->
  e = ValueError (NoSuitableDtype c_min c_max) /\
  forall size dtype, (size, dtype) ∈ items -> fits dtype c_min c_max = false.
Proof.
  induction items as [|[k t] rest IH]; simpl.
  - split.
    + intros [= <-]. split; [done|]. intros ?? Hin. by apply elem_of_nil in Hin.
    + by intros [-> _].
  - destruct (fits t c_min c_max) eqn:Ht.
    + split; [done|]. intros [_ Hnone]. rewrite (Hnone k t) in Ht; [done | left].
    + rewrite IH. split; intros [-> Hnone]; (split; [done|]).
      * intros size dtype [[= -> ->]|Hin]%elem_of_cons; eauto.
      * intros size dtype Hin. apply (Hnone size). by right.
Qed.
End first_fit.

Lemma fits_iff dtype c_min c_max :
  fits dtype c_min c_max = true <->
  scalar_le (info_min (type_info_of dtype)) c_min = true /\
  scalar_le c_max (info_max (type_info_of dtype)) = true.
Proof. unfold fits. simpl. apply andb_true_iff. Qed.

(** A type's own bounds are within its range. *)
Lemma fits_bounds dtype :
  let lo := info_min (type_info_of dtype) in
  let hi := info_max (type_info_of dtype) in
  fits dtype lo hi = true /\ fits dtype lo lo = true /\ fits dtype hi hi = true.
Proof. destruct dtype as [[]|[]]; repeat split; vm_compute; reflexivity. Qed.

(** The selected type is the fitting entry of least size. *)
Lemma get_downcast_type_Ok (type_map : gmap Z numtype) c_min c_max dtype :
  get_downcast_type type_map c_min c_max = Ok dtype <->
  exists size,
    type_map !! size = Some dtype /\
    fits dtype c_min c_max = true /\
    forall size' dtype',
      type_map !! size' = Some dtype' -> size' < size ->
      fits dtype' c_min c_max = false.
Proof.
  unfold get_downcast_type.
  rewrite first_fit_Ok
    by (apply sorted_items_sorted || apply sorted_items_NoDup).
  split; intros (size & Hin & Hfit & Hbelow); exists size.
  - rewrite <- elem_of_sorted_items. split; [done | split; [done|]].
    intros size' dtype' Hin'. apply Hbelow. by apply elem_of_sorted_items.
  - rewrite elem_of_sorted_items. split; [done | split; [done|]].
    intros size' dtype' Hin'. apply Hbelow. by apply elem_of_sorted_items.
Qed.

Lemma get_downcast_type_Raise (type_map : gmap Z numtype) c_min c_max e :
  get_downcast_type type_map c_min c_max = Raise e <->
  e = ValueError (NoSuitableDtype c_min c_max) /\
  forall size dtype,
    type_map !! size = Some dtype -> fits dtype c_min c_max = false.
Proof.
  unfold get_downcast_type. rewrite first_fit_Raise.
  split; intros [-> Hnone]; (split; [done|]); intros size dtype Hin;
    apply (Hnone size); by apply elem_of_sorted_items.
Qed.

(** C1. [get_downcast_type] goes through the mapping in ascending order of
    size and returns the first type whose range holds the pair, that is
    the fitting type of least size: [info_min <= c_min] and
    [c_max <= info_max], both bounds included.  When no entry fits it
    raises the "no suitable dtype" error with the pair, and only then.
    The function is a pure one: its result is all it produces. *)
Theorem get_downcast_type_first_fit (type_map : gmap Z numtype)
        (c_min c_max : scalar) :
  (forall dtype,
      get_downcast_type type_map c_min c_max = Ok dtype <->
      exists size,
        type_map !! size = Some dtype /\
        fits dtype c_min c_max = true /\
        forall size' dtype',
          type_map !! size' = Some dtype' -> size' < size ->
          fits dtype' c_min c_max = false) /\
  (forall e,
      get_downcast_type type_map c_min c_max = Raise e <->
      e = ValueError (NoSuitableDtype c_min c_max) /\
      forall size dtype,
        type_map !! size = Some dtype -> fits dtype c_min c_max = false) /\
  (forall dtype,
      fits dtype c_min c_max = true <->
      scalar_le (info_min (type_info_of dtype)) c_min = true /\
      scalar_le c_max (info_max (type_info_of dtype)) = true) /\
  (forall dtype,
      fits dtype (info_min (type_info_of dtype))
           (info_max (type_info_of dtype)) = true).
Proof.
  split; [|split; [|split]].
  - intros dtype. apply get_downcast_type_Ok.
  - intros e. apply get_downcast_type_Raise.
  - intros dtype. apply fits_iff.
  - intros dtype. apply fits_bounds.
Qed.

Lemma get_downcast_type_first_fit_witness :
  (forall dtype,
      get_downcast_type map_int (SInt (-100)) (SInt 100) = Ok dtype <->
      exists size,
        map_int !! size = Some dtype /\
        fits dtype (SInt (-100)) (SInt 100) = true /\
        forall size' dtype',
          map_int !! size' = Some dtype' -> size' < size ->
          fits dtype' (SInt (-100)) (SInt 100) = false) /\
  (forall e,
      get_downcast_type map_int (SInt (-100)) (SInt 100) = Raise e <->
      e = ValueError (NoSuitableDtype (SInt (-100)) (SInt 100)) /\
      forall size dtype,
        map_int !! size = Some dtype ->
        fits dtype (SInt (-100)) (SInt 100) = false) /\
  (forall dtype,
      fits dtype (SInt (-100)) (SInt 100) = true <->
      scalar_le (info_min (type_info_of dtype)) (SInt (-100)) = true /\
      scalar_le (SInt 100) (info_max (type_info_of dtype)) = true) /\
  (forall dtype,
      fits dtype (info_min (type_info_of dtype))
           (info_max (type_info_of dtype)) = true).
Proof. apply (get_downcast_type_first_fit map_int (SInt (-100)) (SInt 100)). Defined.

(** ** The loop of [downcast] *)

Lemma names_narrow_where P `{forall c, Decision (P c)} df :
  names (narrow_where P df) = names df.
Proof.
  unfold names, narrow_where; simpl. rewrite <- list_fmap_compose.
  apply list_fmap_ext. intros i p _. simpl. by case_decide.
Qed.

Lemma filter_name_narrow_where P `{forall c, Decision (P c)} df c :
  filter (fun p => p.1 = c) (columns (narrow_where P df)) =
  (fun p => if decide (P p.1) then (p.1, downcast_series p.2) else p)
    <$> filter (fun p => p.1 = c) (columns df).
Proof.
  unfold narrow_where; simpl.
  induction (columns df) as [|p cols IH]; [done|]. simpl.
  rewrite !filter_cons, IH.
  assert ((if decide (P p.1) then (p.1, downcast_series p.2) else p).1 = p.1)
    as -> by (by case_decide).
  by case_decide.
Qed.

Lemma occurrences_narrow_where P `{forall c, Decision (P c)} df c :
  occurrences c (narrow_where P df) = occurrences c df.
Proof.
  unfold occurrences. by rewrite filter_name_narrow_where, length_fmap.
Qed.

Lemma narrow_where_ext P Q `{forall c, Decision (P c)} `{forall c, Decision (Q c)} df :
  (forall p, p ∈ columns df -> P p.1 <-> Q p.1) ->
  narrow_where P df = narrow_where Q df.
Proof.
  intros HPQ. unfold narrow_where. f_equal.
  apply list_fmap_ext. intros i p Hp%list_elem_of_lookup_2.
  specialize (HPQ p Hp).
  destruct (decide (P p.1)), (decide (Q p.1)); try done; tauto.
Qed.

Lemma narrow_where_id P `{forall c, Decision (P c)} df :
  (forall p, p ∈ columns df -> P p.1 -> downcast_series p.2 = p.2) ->
  narrow_where P df = df.
Proof.
  intros Hid. destruct df as [idx cols]. unfold narrow_where; simpl in *.
  f_equal. rewrite <- (list_fmap_id cols) at 2.
  apply list_fmap_ext. intros i p Hp%list_elem_of_lookup_2.
  case_decide; [|done]. rewrite Hid by done. by destruct p.
Qed.

Lemma occurrences_pos c df : c ∈ names df -> (0 < occurrences c df)%nat.
Proof.
  unfold names, occurrences. intros (p & -> & Hp)%list_elem_of_fmap.
  assert (p ∈ filter (fun q => q.1 = p.1) (columns df)) as Hin
      by (by apply list_elem_of_filter).
  destruct (filter _ _); [by apply elem_of_nil in Hin | simpl; lia].
Qed.

Lemma filter_name_singleton df c p :
  filter (fun q => q.1 = c) (columns df) = [p] ->
  p ∈ columns df /\ p.1 = c /\ occurrences c df = 1%nat /\
  forall q, q ∈ columns df -> q.1 = c -> q = p.
Proof.
  intros Hfilter. unfold occurrences. rewrite Hfilter.
  assert (forall q, q ∈ columns df /\ q.1 = c <-> q = p) as Hiff.
  { intros q. rewrite <- (list_elem_of_singleton q p), <- Hfilter.
    rewrite list_elem_of_filter. tauto. }
  destruct (proj2 (Hiff p) eq_refl). repeat split; try done.
  intros q ??. by apply Hiff.
Qed.

(** Writing the narrowed column back is the narrowing of that name. *)
Lemma setitem_narrowed df c p :
  filter (fun q => q.1 = c) (columns df) = [p] ->
  setitem df c (downcast_series p.2) =
  narrow_where (fun c' => c' = c /\ occurrences c df = 1%nat) df.
Proof.
  intros (Hp & Hpc & Hocc & Honly)%filter_name_singleton.
  unfold setitem, narrow_where. f_equal.
  rewrite decide_True by (apply list_elem_of_fmap; eauto).
  apply list_fmap_ext. intros i q Hq%list_elem_of_lookup_2. simpl.
  destruct (decide (q.1 = c)) as [Hqc|Hqc].
  - rewrite decide_True by done. by rewrite (Honly q Hq Hqc), Hpc.
  - rewrite decide_False; [done | tauto].
Qed.

Lemma narrow_where_same df c p :
  filter (fun q => q.1 = c) (columns df) = [p] ->
  downcast_series p.2 = p.2 ->
  narrow_where (fun c' => c' = c /\ occurrences c df = 1%nat) df = df.
Proof.
  intros (Hp & Hpc & Hocc & Honly)%filter_name_singleton Hsame.
  apply narrow_where_id. intros q Hq [Hqc _]. by rewrite (Honly q Hq Hqc).
Qed.

(** One pass of the loop body narrows the column named [c] when it is
    the only one of that name, and changes nothing else. *)
Lemma downcast_column_spec df c :
  c ∈ names df ->
  downcast_column df c =
  Ok (narrow_where (fun c' => c' = c /\ occurrences c df = 1%nat) df).
Proof.
  intros Hc. pose proof (occurrences_pos c df Hc) as Hpos.
  unfold downcast_column, getitem.
  destruct (filter _ (columns df)) as [|p [|q rest]] eqn:Hfilter.
  - unfold occurrences in Hpos. rewrite Hfilter in Hpos. simpl in Hpos. lia.
  - pose proof (setitem_narrowed df c p Hfilter) as Hset.
    pose proof (narrow_where_same df c p Hfilter) as Hsame.
    destruct p as [n [a|cells]]; simpl in *; [|by rewrite Hsame].
    unfold narrowed in *.
    destruct (is_integer_dtype a && negb (is_float_dtype a)).
    + destruct (get_downcast_type map_int _ _) as [t|e]; simpl in *;
        [|by rewrite Hsame].
      destruct (astype a t) as [a'|e]; simpl in *; [|by rewrite Hsame].
      by rewrite Hset.
    + destruct (is_float_dtype a); simpl in *; [|by rewrite Hsame].
      destruct (get_downcast_type map_float _ _) as [t|e]; simpl in *;
        [|by rewrite Hsame].
      destruct (astype a t) as [a'|e]; simpl in *; [|by rewrite Hsame].
      by rewrite Hset.
  - simpl. f_equal. symmetry. apply narrow_where_id.
    intros ? _ [_ Hocc]. unfold occurrences in Hocc. rewrite Hfilter in Hocc.
    simpl in Hocc. lia.
Qed.

Lemma narrow_where_compose P Q `{forall c, Decision (P c)}
      `{forall c, Decision (Q c)} df :
  (forall c, P c -> Q c -> False) ->
  narrow_where Q (narrow_where P df) = narrow_where (fun c => P c \/ Q c) df.
Proof.
  intros Hdisj. unfold narrow_where; simpl. f_equal.
  rewrite <- list_fmap_compose. apply list_fmap_ext. intros i p _. simpl.
  destruct (decide (P p.1)) as [HP|HP]; simpl.
  - rewrite decide_False by eauto. by rewrite decide_True by eauto.
  - destruct (decide (Q p.1)).
    + by rewrite decide_True by eauto.
    + rewrite decide_False; [done | tauto].
Qed.

Lemma occurrences_names c df :
  occurrences c df = length (filter (fun n => n = c) (names df)).
Proof.
  unfold occurrences, names.
  induction (columns df) as [|p cols IH]; [done|].
  rewrite fmap_cons, !filter_cons. simpl. case_decide; simpl; by rewrite IH.
Qed.

(** A name that is still to come after its own turn names several
    columns. *)
Lemma occurrences_twice c rest df :
  (c :: rest) `suffix_of` names df -> c ∈ rest -> (2 <= occurrences c df)%nat.
Proof.
  intros [k Hk] Hin. rewrite occurrences_names, Hk.
  rewrite filter_app, filter_cons, decide_True by done.
  assert (c ∈ filter (fun n => n = c) rest) as Hc by (by apply list_elem_of_filter).
  rewrite length_app. simpl.
  destruct (filter _ rest); [by apply elem_of_nil in Hc | simpl; lia].
Qed.

Lemma downcast_loop_spec todo : forall df,
  todo `suffix_of` names df ->
  downcast_loop todo df =
  Ok (narrow_where (fun c => c ∈ todo /\ occurrences c df = 1%nat) df).
Proof.
  induction todo as [|c rest IH]; intros df Hsuffix; simpl.
  - f_equal. symmetry. apply narrow_where_id.
    intros ? _ [Hin _]. by apply elem_of_nil in Hin.
  - assert (c ∈ names df) as Hc.
    { destruct Hsuffix as [k ->]. apply elem_of_app. right. left. }
    rewrite downcast_column_spec by done. simpl.
    rewrite IH.
    + f_equal. rewrite narrow_where_compose.
      * apply narrow_where_ext. intros p _.
        rewrite occurrences_narrow_where, elem_of_cons.
        split; [intros [[-> ?]|[? ?]] | intros [[->|?] ?]]; tauto.
      * intros c' [Heq Hone] [Hin _]. subst c'.
        pose proof (occurrences_twice c rest df Hsuffix Hin). lia.
    + rewrite names_narrow_where. by eapply suffix_cons_l.
Qed.

(** [downcast] returns, and leaves the table with every column of a name
    of its own narrowed. *)
Lemma downcast_spec df : downcast df = Ok (downcast_result df).
Proof.
  unfold downcast, downcast_result. rewrite downcast_loop_spec by done.
  f_equal. apply narrow_where_ext. intros p Hp.
  assert (p.1 ∈ names df) by (apply list_elem_of_fmap; eauto). tauto.
Qed.

(** ** The two catalogs *)

Lemma sorted_items_map_int :
  sorted_items map_int =
  [(1, Integer int8); (2, Integer int16); (4, Integer int32); (8, Integer int64)].
Proof. vm_compute. reflexivity. Qed.

Lemma sorted_items_map_float :
  sorted_items map_float =
  [(2, Floating float16); (4, Floating float32); (8, Floating float64)].
Proof. vm_compute. reflexivity. Qed.

Lemma get_downcast_type_map_int c_min c_max :
  get_downcast_type map_int c_min c_max =
  if fits (Integer int8) c_min c_max then Ok (Integer int8)
  else if fits (Integer int16) c_min c_max then Ok (Integer int16)
  else if fits (Integer int32) c_min c_max then Ok (Integer int32)
  else if fits (Integer int64) c_min c_max then Ok (Integer int64)
  else Raise (ValueError (NoSuitableDtype c_min c_max)).
Proof. unfold get_downcast_type. by rewrite sorted_items_map_int. Qed.

Lemma get_downcast_type_map_float c_min c_max :
  get_downcast_type map_float c_min c_max =
  if fits (Floating float16) c_min c_max then Ok (Floating float16)
  else if fits (Floating float32) c_min c_max then Ok (Floating float32)
  else if fits (Floating float64) c_min c_max then Ok (Floating float64)
  else Raise (ValueError (NoSuitableDtype c_min c_max)).
Proof. unfold get_downcast_type. by rewrite sorted_items_map_float. Qed.

(** ** The order on integers and on floating values *)

Lemma scalar_le_SInt a b : scalar_le (SInt a) (SInt b) = (a <=? b).
Proof.
  unfold scalar_le, ext_le; simpl. by rewrite !Z.mul_1_r.
Qed.

Lemma fits_Integer t lo hi :
  fits (Integer t) (SInt lo) (SInt hi) = true <-> int_min t <= lo /\ hi <= int_max t.
Proof.
  rewrite fits_iff. simpl. rewrite !scalar_le_SInt. lia.
Qed.

Lemma fits_nan_l dtype c_max : fits dtype nan c_max = false.
Proof. by destruct dtype as [[]|[]]. Qed.

(** ** Integer columns *)

Lemma foldr_min_spec x xs :
  foldr Z.min x xs ∈ x :: xs /\ Forall (fun y => foldr Z.min x xs <= y) (x :: xs).
Proof.
  induction xs as [|y ys [IHin IHle]]; simpl.
  - split; [left | repeat constructor; lia].
  - apply Forall_cons in IHle as [Hx Hys]. split.
    + destruct (Z.min_spec y (foldr Z.min x ys)) as [[_ ->]|[_ ->]].
      * right. left.
      * apply elem_of_cons in IHin as [->|Hin]; [left | right; by right].
    + repeat apply Forall_cons_2; [lia | lia |].
      eapply Forall_impl; [exact Hys | simpl; lia].
Qed.

Lemma foldr_max_spec x xs :
  foldr Z.max x xs ∈ x :: xs /\ Forall (fun y => y <= foldr Z.max x xs) (x :: xs).
Proof.
  induction xs as [|y ys [IHin IHle]]; simpl.
  - split; [left | repeat constructor; lia].
  - apply Forall_cons in IHle as [Hx Hys]. split.
    + destruct (Z.max_spec y (foldr Z.max x ys)) as [[_ ->]|[_ ->]].
      * apply elem_of_cons in IHin as [->|Hin]; [left | right; by right].
      * right. left.
    + repeat apply Forall_cons_2; [lia | lia |].
      eapply Forall_impl; [exact Hys | simpl; lia].
Qed.

(** The values of an integer column lie between its minimum and its
    maximum. *)
Lemma Ints_between t xs lo hi :
  array_min (Ints t xs) = SInt lo -> array_max (Ints t xs) = SInt hi ->
  Forall (fun y => lo <= y <= hi) xs.
Proof.
  destruct xs as [|x xs]; simpl; [done|]. intros [= <-] [= <-].
  destruct (foldr_min_spec x xs) as [_ Hmin].
  destruct (foldr_max_spec x xs) as [_ Hmax].
  apply Forall_forall. intros y Hy.
  rewrite Forall_forall in Hmin, Hmax. split; auto.
Qed.

(** The minimum and the maximum of a column with a row are integers. *)
Lemma Ints_min_max t xs :
  xs <> [] -> exists lo hi,
    array_min (Ints t xs) = SInt lo /\ array_max (Ints t xs) = SInt hi /\
    lo ∈ xs /\ hi ∈ xs.
Proof.
  destruct xs as [|x xs]; [done|]. intros _. simpl.
  exists (foldr Z.min x xs), (foldr Z.max x xs).
  destruct (foldr_min_spec x xs), (foldr_max_spec x xs). by repeat split.
Qed.

Lemma wrap_in_range t z : in_range t z -> wrap t z = z.
Proof.
  unfold in_range, wrap, int_min, int_max.
  destruct t; simpl; intros ?;
    rewrite Z.mod_small by lia; lia.
Qed.

Lemma map_wrap_in_range t xs : Forall (in_range t) xs -> map (wrap t) xs = xs.
Proof.
  induction 1 as [|x xs Hx _ IH]; simpl; [done|].
  by rewrite wrap_in_range, IH.
Qed.

(** A conversion to an integer type whose range holds the column's
    minimum and maximum keeps every value. *)
Lemma astype_Ints_fits t xs t' :
  fits (Integer t') (array_min (Ints t xs)) (array_max (Ints t xs)) = true ->
  astype (Ints t xs) (Integer t') = Ok (Ints t' xs).
Proof.
  intros Hfit. unfold astype. case_decide as Heq.
  - simpl in Heq. by injection Heq as ->.
  - destruct (decide (xs = [])) as [->|Hne]; [done|].
    destruct (Ints_min_max t xs Hne) as (lo & hi & Hlo & Hhi & _).
    rewrite Hlo, Hhi in Hfit. apply fits_Integer in Hfit.
    rewrite map_wrap_in_range; [done|].
    eapply Forall_impl; [by apply (Ints_between t xs lo hi)|].
    unfold in_range. simpl. lia.
Qed.

(** What the [try] block makes of an integer column. *)
Lemma narrowed_Ints t xs :
  narrowed (Ints t xs) =
  t' ← get_downcast_type map_int (array_min (Ints t xs)) (array_max (Ints t xs));
  match t' with
  | Integer ti => Ok (Ints ti xs)
  | Floating _ => astype (Ints t xs) t'
  end.
Proof.
  unfold narrowed. simpl is_integer_dtype. simpl is_float_dtype. simpl andb.
  cbv iota. rewrite get_downcast_type_map_int.
  repeat match goal with
         | |- context [if fits ?d ?lo ?hi then _ else _] =>
             destruct (fits d lo hi) eqn:?; [simpl; by apply astype_Ints_fits|]
         end.
  reflexivity.
Qed.

Lemma map_int_lookup size t' :
  map_int !! size = Some t' <->
  exists ti, t' = Integer ti /\ is_signed ti = true /\ size = int_itemsize ti.
Proof.
  rewrite <- elem_of_sorted_items, sorted_items_map_int. split.
  - intros Hin.
    repeat (apply elem_of_cons in Hin as [[= -> ->]|Hin]; [by eexists|]).
    by apply elem_of_nil in Hin.
  - intros (ti & -> & Hsigned & ->).
    destruct ti; try discriminate; simpl; set_solver.
Qed.

Lemma map_float_lookup size t' :
  map_float !! size = Some t' <->
  exists tf, t' = Floating tf /\ size = float_itemsize tf.
Proof.
  rewrite <- elem_of_sorted_items, sorted_items_map_float. split.
  - intros Hin.
    repeat (apply elem_of_cons in Hin as [[= -> ->]|Hin]; [by eexists|]).
    by apply elem_of_nil in Hin.
  - intros (tf & -> & ->). destruct tf; simpl; set_solver.
Qed.

(** ** Floating-point columns *)

Lemma digits2_pos_bound m : Zpos m < 2 ^ Zpos (digits2_pos m).
Proof.
  induction m as [m IH|m IH|]; simpl; [| |done];
    rewrite Pos2Z.inj_succ, Z.pow_succ_r by lia; lia.
Qed.

(** The mantissa of a value of a format has at most [prec] digits and its
    exponent is at most the top one. *)
Lemma bounded_inv t m e :
  bounded (float_prec t) (float_emax t) m e = true ->
  Zpos m <= 2 ^ float_prec t - 1 /\ e <= float_emax t - float_prec t.
Proof.
  unfold bounded, canonical_mantissa, fexp.
  intros [Hcanon Hle]%andb_true_iff.
  apply Z.eqb_eq in Hcanon. apply Z.leb_le in Hle. split; [|done].
  pose proof (digits2_pos_bound m) as Hdigits.
  assert (Zpos (digits2_pos m) <= float_prec t) as Hprec by lia.
  assert (2 ^ Zpos (digits2_pos m) <= 2 ^ float_prec t)
    by (apply Z.pow_le_mono_r; lia).
  lia.
Qed.

Lemma float_max_ext t :
  float_ext (float_max t) = EFin (2 ^ float_prec t - 1) (float_emax t - float_prec t) /\
  float_ext (SFopp (float_max t)) =
    EFin (- (2 ^ float_prec t - 1)) (float_emax t - float_prec t).
Proof. by destruct t. Qed.

(** A finite value of a format lies within the format's [finfo] range. *)
Lemma valid_float_fits t f :
  valid_binary (float_prec t) (float_emax t) f = true -> is_finite f = true ->
  float_le (SFopp (float_max t)) f = true /\ float_le f (float_max t) = true.
Proof.
  unfold float_le. destruct (float_max_ext t) as [-> ->].
  destruct f as [s| | |s m e]; try discriminate; intros Hvalid _.
  - by destruct t.
  - simpl in Hvalid. apply bounded_inv in Hvalid as [Hm He].
    unfold ext_le, float_ext.
    rewrite Z.min_r, Z.min_l by lia. rewrite Z.sub_diag. simpl (2 ^ 0).
    assert (1 <= 2 ^ (float_emax t - float_prec t - e))
      by (apply (Z.pow_le_mono_r 2 0); lia).
    assert (0 < 2 ^ float_prec t - 1) by (by destruct t).
    split; apply Z.leb_le; destruct s; simpl; nia.
Qed.

Lemma nanmin_elem xs : nanmin xs = S754_nan \/ nanmin xs ∈ xs.
Proof.
  induction xs as [|x xs IH]; simpl; [by left|].
  fold (nanmin xs). destruct (is_nan x) eqn:Hx.
  - destruct IH as [->|?]; [by left | right; by right].
  - right. destruct (is_nan (nanmin xs)) eqn:Hnan; [left|].
    destruct (float_le x (nanmin xs)); [left|].
    destruct IH as [Heq|?]; [|by right].
    by rewrite Heq in Hnan.
Qed.

Lemma nanmax_elem xs : nanmax xs = S754_nan \/ nanmax xs ∈ xs.
Proof.
  induction xs as [|x xs IH]; simpl; [by left|].
  fold (nanmax xs). destruct (is_nan x) eqn:Hx.
  - destruct IH as [->|?]; [by left | right; by right].
  - right. destruct (is_nan (nanmax xs)) eqn:Hnan; [left|].
    destruct (float_le (nanmax xs) x); [left|].
    destruct IH as [Heq|?]; [|by right].
    by rewrite Heq in Hnan.
Qed.

(** ** What the loop body makes of a column *)

Lemma narrowed_catalog a :
  narrowed a =
  match catalog a with
  | Some type_map =>
      t ← get_downcast_type type_map (array_min a) (array_max a); astype a t
  | None => Ok a
  end.
Proof. by destruct a. Qed.

Lemma astype_Ok a t a' :
  astype a t = Ok a' ->
  array_dtype a' = Num t /\ array_length a' = array_length a.
Proof.
  unfold astype. case_decide as Heq; [by intros [= <-]|].
  destruct a, t; simpl;
    try (intros [= <-]; simpl; by rewrite List.length_map).
  destruct (forallb _ _); [|done].
  intros [= <-]; simpl. by rewrite List.length_map.
Qed.

(** A column that is converted gets the selected type, which fits its
    range, and keeps its length. *)
Lemma narrowed_Ok a a' :
  narrowed a = Ok a' ->
  array_length a' = array_length a /\
  match catalog a with
  | Some type_map =>
      exists t, get_downcast_type type_map (array_min a) (array_max a) = Ok t /\
                array_dtype a' = Num t
  | None => a' = a
  end.
Proof.
  rewrite narrowed_catalog. destruct (catalog a) as [type_map|].
  - intros (t & Ht & [Hdtype Hlen]%astype_Ok)%bind_Ok. eauto.
  - by intros [= <-].
Qed.

Lemma downcast_series_length s :
  Series_length (downcast_series s) = Series_length s.
Proof.
  destruct s as [a|cells]; simpl; [|done].
  destruct (narrowed a) as [a'|e] eqn:Hn; [|done].
  by apply narrowed_Ok in Hn as [? _].
Qed.

(** The range of a column's own dtype holds its minimum and maximum when
    these are finite. *)
Lemma wf_array_own_range a :
  wf_array a ->
  is_finite_scalar (array_min a) = true ->
  is_finite_scalar (array_max a) = true ->
  range_contains (array_dtype a) (array_min a) (array_max a).
Proof.
  destruct a as [t xs|t xs|xs]; simpl.
  - intros Hwf Hmin _. destruct (decide (xs = [])) as [->|Hne]; [done|].
    destruct (Ints_min_max t xs Hne) as (lo & hi & Hlo & Hhi & Hloin & Hhiin).
    simpl in Hlo, Hhi. rewrite Hlo, Hhi. apply fits_Integer.
    rewrite Forall_forall in Hwf.
    destruct (Hwf lo Hloin), (Hwf hi Hhiin). lia.
  - intros Hwf Hmin Hmax. rewrite Forall_forall in Hwf.
    destruct (nanmin_elem xs) as [Hnan|Hloin]; [by rewrite Hnan in Hmin|].
    destruct (nanmax_elem xs) as [Hnan|Hhiin]; [by rewrite Hnan in Hmax|].
    apply fits_iff. simpl.
    destruct (valid_float_fits t _ (Hwf _ Hloin) Hmin) as [Hlo _].
    destruct (valid_float_fits t _ (Hwf _ Hhiin) Hmax) as [_ Hhi].
    split; [exact Hlo | exact Hhi].
  - intros _ Hmin _. destruct xs as [|x xs]; [done|].
    split; [by destruct (forallb id (x :: xs)) | by destruct (existsb id (x :: xs))].
Qed.

(** Well-formedness of a table that is written out. *)
Ltac wf_by_computation :=
  unfold wf_DataFrame; simpl;
  repeat (apply Forall_cons_2 || apply Forall_nil_2); simpl;
  repeat split;
  repeat (apply Forall_cons_2 || apply Forall_nil_2);
  try reflexivity; unfold in_range; vm_compute; split; discriminate.

(** ** The table [downcast] leaves, column by column *)

Lemma downcast_result_lookup df i :
  columns (downcast_result df) !! i =
  (fun p => if decide (occurrences p.1 df = 1%nat)
            then (p.1, downcast_series p.2) else p) <$> columns df !! i.
Proof. unfold downcast_result, narrow_where; simpl. apply list_lookup_fmap. Qed.

Lemma downcast_result_column df i n s :
  columns df !! i = Some (n, s) ->
  exists s', columns (downcast_result df) !! i = Some (n, s') /\
             (s' = s \/ s' = downcast_series s).
Proof.
  intros Hi. rewrite downcast_result_lookup, Hi. simpl.
  case_decide; eauto.
Qed.

Lemma names_downcast_result df : names (downcast_result df) = names df.
Proof. apply names_narrow_where. Qed.

(** C2 (amended). [downcast] keeps the row labels, the names and order of
    the columns and the length of every column, leaves every column
    that is not numeric as it is, and leaves every numeric column whose
    minimum and maximum are finite numbers with a dtype whose range holds
    them. *)
Theorem downcast_range_and_shape (df : DataFrame) :
  wf_DataFrame df ->
  exists df',
    downcast df = Ok df' /\
    index df' = index df /\
    names df' = names df /\
    forall i n s,
      columns df !! i = Some (n, s) ->
      exists s',
        columns df' !! i = Some (n, s') /\
        Series_length s' = Series_length s /\
        (is_numeric_dtype (ASeries s) = false -> s' = s) /\
        (forall a,
            s = Numeric a ->
            is_finite_scalar (array_min a) = true ->
            is_finite_scalar (array_max a) = true ->
            range_contains (Series_dtype s') (array_min a) (array_max a)).
Proof.
  intros Hwf. exists (downcast_result df).
  split; [apply downcast_spec | split; [done | split; [apply names_downcast_result|]]].
  intros i n s Hi.
  assert (wf_Series s) as Hs.
  { unfold wf_DataFrame in Hwf. rewrite Forall_forall in Hwf.
    apply list_elem_of_lookup_2 in Hi. by destruct (Hwf _ Hi). }
  destruct (downcast_result_column df i n s Hi) as (s' & Hi' & Hs').
  exists s'. split; [done|].
  assert (forall a, s = Numeric a ->
            is_finite_scalar (array_min a) = true ->
            is_finite_scalar (array_max a) = true ->
            range_contains (Series_dtype s) (array_min a) (array_max a)) as Hown.
  { intros a -> ??. by apply wf_array_own_range. }
  destruct Hs' as [->| ->]; [done|].
  split; [apply downcast_series_length | split].
  - by destruct s.
  - intros a -> Hmin Hmax. simpl.
    destruct (narrowed a) as [a'|e] eqn:Hn; [|by apply Hown].
    apply narrowed_Ok in Hn as [_ Hcat]. simpl.
    destruct (catalog a) as [type_map|]; [|subst a'; by apply (Hown a)].
    destruct Hcat as (t & Ht & ->).
    by apply get_downcast_type_Ok in Ht as (size & _ & Hfit & _).
Qed.

Lemma downcast_range_and_shape_witness :
  exists df',
    downcast sample_mixed = Ok df' /\
    index df' = index sample_mixed /\
    names df' = names sample_mixed /\
    forall i n s,
      columns sample_mixed !! i = Some (n, s) ->
      exists s',
        columns df' !! i = Some (n, s') /\
        Series_length s' = Series_length s /\
        (is_numeric_dtype (ASeries s) = false -> s' = s) /\
        (forall a,
            s = Numeric a ->
            is_finite_scalar (array_min a) = true ->
            is_finite_scalar (array_max a) = true ->
            range_contains (Series_dtype s') (array_min a) (array_max a)).
Proof.
  apply (downcast_range_and_shape sample_mixed).
  wf_by_computation.
Defined.

(** A column with an infinity stays float64, whose range does not hold
    the column's maximum. *)
Lemma downcast_range_counterexample :
  wf_DataFrame sample_infinite /\
  exists df' a',
    downcast sample_infinite = Ok df' /\
    columns df' !! 0%nat = Some ("ratio", Numeric a') /\
    ~ range_contains (array_dtype a') (array_min a') (array_max a') /\
    ~ range_contains (array_dtype a')
        (array_min (Floats float64 [S754_infinity false]))
        (array_max (Floats float64 [S754_infinity false])).
Proof.
  split.
  - wf_by_computation.
  - exists sample_infinite, (Floats float64 [S754_infinity false]).
    repeat split; try (vm_compute; discriminate).
Qed.

(** A column whose range no type of its catalog fits is left as it is. *)
Lemma narrowed_unfit a type_map :
  catalog a = Some type_map ->
  (forall size t, type_map !! size = Some t ->
                  fits t (array_min a) (array_max a) = false) ->
  downcast_series (Numeric a) = Numeric a.
Proof.
  intros Hcat Hnone. simpl. rewrite narrowed_catalog, Hcat.
  destruct (get_downcast_type _ _ _) as [t|e] eqn:Ht; [|done].
  apply get_downcast_type_Ok in Ht as (size & Hin & Hfit & _).
  by rewrite (Hnone size t Hin) in Hfit.
Qed.

(** A column for which a type is selected is converted to it. *)
Lemma narrowed_selected a type_map t :
  catalog a = Some type_map ->
  get_downcast_type type_map (array_min a) (array_max a) = Ok t ->
  exists a', narrowed a = Ok a' /\ array_dtype a' = Num t /\
             array_length a' = array_length a.
Proof.
  intros Hcat Ht. rewrite narrowed_catalog, Hcat, Ht. simpl.
  assert (exists a', astype a t = Ok a') as [a' Ha'].
  { apply get_downcast_type_Ok in Ht as (size & Hin & _).
    unfold astype. case_decide; [eauto|].
    destruct a as [ti xs|tf xs|xs]; simplify_eq/=.
    - apply map_int_lookup in Hin as (? & -> & _); eauto.
    - apply map_float_lookup in Hin as (? & -> & _); eauto. }
  exists a'. split; [done|]. by apply astype_Ok.
Qed.

(** C3. A numeric column whose range fits no type of its catalog, such as
    an unsigned column with a value above the largest 8-byte signed
    integer, keeps its dtype and its values; [downcast] returns without
    an exception, and every other column for which a type is selected
    has that type afterwards. *)
Theorem downcast_skips_unfit (df : DataFrame) (i : nat) (n : string)
        (a : ndarray) (type_map : gmap Z numtype) :
  columns df !! i = Some (n, Numeric a) ->
  catalog a = Some type_map ->
  (forall size t, type_map !! size = Some t ->
                  fits t (array_min a) (array_max a) = false) ->
  exists df',
    downcast df = Ok df' /\
    columns df' !! i = Some (n, Numeric a) /\
    forall j n' a' type_map' t,
      columns df !! j = Some (n', Numeric a') ->
      occurrences n' df = 1%nat ->
      catalog a' = Some type_map' ->
      get_downcast_type type_map' (array_min a') (array_max a') = Ok t ->
      exists a'',
        columns df' !! j = Some (n', Numeric a'') /\
        array_dtype a'' = Num t /\
        array_length a'' = array_length a'.
Proof.
  intros Hi Hcat Hnone. exists (downcast_result df).
  split; [apply downcast_spec | split].
  - pose proof (narrowed_unfit a type_map Hcat Hnone) as Hsame.
    rewrite downcast_result_lookup, Hi. simpl in *.
    case_decide; [|done]. by rewrite Hsame.
  - intros j n' a' type_map' t Hj Hone Hcat' Ht.
    destruct (narrowed_selected a' type_map' t Hcat' Ht) as (a'' & Hn & ? & ?).
    exists a''. split; [|done].
    rewrite downcast_result_lookup, Hj. simpl.
    rewrite decide_True by done. by rewrite Hn.
Qed.

Lemma downcast_skips_unfit_witness :
  exists df',
    downcast sample_beyond = Ok df' /\
    columns df' !! 0%nat =
      Some ("id", Numeric (Ints uint64 [9223372036854775808])) /\
    forall j n' a' type_map' t,
      columns sample_beyond !! j = Some (n', Numeric a') ->
      occurrences n' sample_beyond = 1%nat ->
      catalog a' = Some type_map' ->
      get_downcast_type type_map' (array_min a') (array_max a') = Ok t ->
      exists a'',
        columns df' !! j = Some (n', Numeric a'') /\
        array_dtype a'' = Num t /\
        array_length a'' = array_length a'.
Proof.
  apply (downcast_skips_unfit sample_beyond 0 "id"
           (Ints uint64 [9223372036854775808]) map_int).
  - reflexivity.
  - reflexivity.
  - intros size t (ti & -> & Hsigned & _)%map_int_lookup.
    destruct ti; try discriminate; reflexivity.
Defined.

(** C9. A column that is not numeric has the same dtype and the same
    values after [downcast] as before. *)
Theorem downcast_keeps_non_numeric (df : DataFrame) (i : nat) (n : string)
        (s : Series) :
  columns df !! i = Some (n, s) ->
  is_numeric_dtype (ASeries s) = false ->
  exists df', downcast df = Ok df' /\ columns df' !! i = Some (n, s).
Proof.
  intros Hi Hs. exists (downcast_result df). split; [apply downcast_spec|].
  destruct (downcast_result_column df i n s Hi) as (s' & Hi' & [->| ->]);
    [done|]. by destruct s.
Qed.

Lemma downcast_keeps_non_numeric_witness :
  exists df',
    downcast sample_mixed = Ok df' /\
    columns df' !! 3%nat = Some ("name", Text [Some "ann"; None]).
Proof.
  apply (downcast_keeps_non_numeric sample_mixed 3 "name"
           (Text [Some "ann"; None])); reflexivity.
Defined.

(** An integer column of a name of its own ends with the selected type
    and its values. *)
Lemma downcast_Ints_selected df i n t xs ti :
  columns df !! i = Some (n, Numeric (Ints t xs)) ->
  occurrences n df = 1%nat ->
  get_downcast_type map_int (array_min (Ints t xs)) (array_max (Ints t xs)) =
    Ok (Integer ti) ->
  columns (downcast_result df) !! i = Some (n, Numeric (Ints ti xs)).
Proof.
  intros Hi Hone Hti.
  pose proof (narrowed_Ints t xs) as Hn. rewrite Hti in Hn. simpl in Hn.
  rewrite downcast_result_lookup, Hi. simpl.
  rewrite decide_True by done. by rewrite Hn.
Qed.

(** C8. The type selected for the range [-100, 100] is int8 and the type
    selected for [0, 1000000] is int32, and [downcast] gives these types
    to integer columns with these ranges. *)
Theorem downcast_examples (df : DataFrame) (i j : nat) (n m : string)
        (t u : int_type) (xs ys : list Z) :
  columns df !! i = Some (n, Numeric (Ints t xs)) ->
  occurrences n df = 1%nat ->
  array_min (Ints t xs) = SInt (-100) ->
  array_max (Ints t xs) = SInt 100 ->
  columns df !! j = Some (m, Numeric (Ints u ys)) ->
  occurrences m df = 1%nat ->
  array_min (Ints u ys) = SInt 0 ->
  array_max (Ints u ys) = SInt 1000000 ->
  get_downcast_type map_int (SInt (-100)) (SInt 100) = Ok (Integer int8) /\
  get_downcast_type map_int (SInt 0) (SInt 1000000) = Ok (Integer int32) /\
  exists df',
    downcast df = Ok df' /\
    columns df' !! i = Some (n, Numeric (Ints int8 xs)) /\
    columns df' !! j = Some (m, Numeric (Ints int32 ys)).
Proof.
  intros Hi Hn Hmin Hmax Hj Hm Hmin' Hmax'.
  split; [reflexivity | split; [reflexivity|]].
  exists (downcast_result df). split; [apply downcast_spec | split].
  - apply (downcast_Ints_selected df i n t xs int8 Hi Hn).
    rewrite Hmin, Hmax. reflexivity.
  - apply (downcast_Ints_selected df j m u ys int32 Hj Hm).
    rewrite Hmin', Hmax'. reflexivity.
Qed.

Lemma downcast_examples_witness :
  get_downcast_type map_int (SInt (-100)) (SInt 100) = Ok (Integer int8) /\
  get_downcast_type map_int (SInt 0) (SInt 1000000) = Ok (Integer int32) /\
  exists df',
    downcast sample_mixed = Ok df' /\
    columns df' !! 0%nat = Some ("user", Numeric (Ints int8 [-100; 100])) /\
    columns df' !! 1%nat = Some ("clicks", Numeric (Ints int32 [0; 1000000])).
Proof.
  apply (downcast_examples sample_mixed 0 1 "user" "clicks" int64 int64
           [-100; 100] [0; 1000000]); reflexivity.
Defined.

(** ** Widths *)

Lemma nanmax_infinity xs :
  S754_infinity false ∈ xs -> nanmax xs = S754_infinity false.
Proof.
  induction xs as [|x xs IH]; [by intros ?%elem_of_nil|].
  intros [<-|Hin]%elem_of_cons; simpl; fold (nanmax xs).
  - by destruct (nanmax xs) as [|[]| |].
  - rewrite (IH Hin). destruct x as [|[]| |[]]; done.
Qed.

Lemma nanmin_infinity xs :
  S754_infinity true ∈ xs -> nanmin xs = S754_infinity true.
Proof.
  induction xs as [|x xs IH]; [by intros ?%elem_of_nil|].
  intros [<-|Hin]%elem_of_cons; simpl; fold (nanmin xs).
  - by destruct (nanmin xs) as [|[]| |].
  - rewrite (IH Hin). destruct x as [|[]| |[]]; done.
Qed.

Lemma fits_SFloat t lo hi :
  fits t (SFloat lo) (SFloat hi) = true ->
  (lo = S754_infinity false \/ is_finite lo = true) /\
  (hi = S754_infinity true \/ is_finite hi = true).
Proof.
  intros [Hlo Hhi]%fits_iff. split.
  - destruct lo as [|[]| |]; eauto; destruct t as [[]|[]]; discriminate.
  - destruct hi as [|[]| |]; eauto; destruct t as [[]|[]]; discriminate.
Qed.

(** A range for which a type is selected has finite ends. *)
Lemma selected_finite a type_map t :
  catalog a = Some type_map ->
  get_downcast_type type_map (array_min a) (array_max a) = Ok t ->
  is_finite_scalar (array_min a) = true /\ is_finite_scalar (array_max a) = true.
Proof.
  intros Hcat (size & _ & Hfit & _)%get_downcast_type_Ok.
  destruct a as [ti xs|tf xs|xs]; [| |done].
  - destruct xs; [by rewrite fits_nan_l in Hfit | done].
  - simpl in *. pose proof (fits_SFloat _ _ _ Hfit) as [Hlo Hhi].
    destruct Hlo as [Hlo|Hlo], Hhi as [Hhi|Hhi]; try done.
    + destruct (nanmin_elem xs) as [Hnan|Hin]; [by rewrite Hnan in Hlo|].
      rewrite Hlo in Hin. by rewrite (nanmax_infinity xs Hin) in Hhi.
    + destruct (nanmin_elem xs) as [Hnan|Hin]; [by rewrite Hnan in Hlo|].
      rewrite Hlo in Hin. rewrite (nanmax_infinity xs Hin) in Hhi. done.
    + destruct (nanmax_elem xs) as [Hnan|Hin]; [by rewrite Hnan in Hhi|].
      rewrite Hhi in Hin. rewrite (nanmin_infinity xs Hin) in Hlo. done.
Qed.

(** The type of a column that is not unsigned is in the catalog that is
    searched for it, under its own width. *)
Lemma catalog_own a type_map :
  catalog a = Some type_map -> is_unsigned_dtype a = false ->
  exists t, array_dtype a = Num t /\ type_map !! itemsize t = Some t.
Proof.
  destruct a as [ti xs|tf xs|xs]; intros [= <-] Hsigned; simpl in *.
  - exists (Integer ti). split; [done|]. apply map_int_lookup.
    exists ti. by destruct (is_signed ti).
  - exists (Floating tf). split; [done|]. apply map_float_lookup. eauto.
Qed.

Lemma catalog_size a type_map size t :
  catalog a = Some type_map -> type_map !! size = Some t -> size = itemsize t.
Proof.
  destruct a as [ti xs|tf xs|xs]; intros [= <-].
  - by intros (? & -> & _ & ->)%map_int_lookup.
  - by intros (? & -> & ->)%map_float_lookup.
Qed.

(** The conversion never widens a column that is not unsigned. *)
Lemma narrowed_itemsize a a' :
  wf_array a -> is_unsigned_dtype a = false -> narrowed a = Ok a' ->
  dtype_itemsize (array_dtype a') <= dtype_itemsize (array_dtype a).
Proof.
  intros Hwf Hsigned [_ Hn]%narrowed_Ok.
  destruct (catalog a) as [type_map|] eqn:Hcat; [|subst a'; lia].
  destruct Hn as (t' & Ht' & ->).
  destruct (selected_finite a type_map t' Hcat Ht') as [Hmin Hmax].
  pose proof (wf_array_own_range a Hwf Hmin Hmax) as Hown.
  destruct (catalog_own a type_map Hcat Hsigned) as (t & Hdtype & Hentry).
  rewrite Hdtype in *. simpl in *.
  apply get_downcast_type_Ok in Ht' as (size & Hin & _ & Hbelow).
  rewrite (catalog_size a type_map size t' Hcat Hin) in Hbelow.
  destruct (Z.le_gt_cases (itemsize t') (itemsize t)) as [?|Hlt]; [done|].
  by rewrite (Hbelow _ _ Hentry Hlt) in Hown.
Qed.

Lemma narrowed_Ints_Ok t xs a' :
  narrowed (Ints t xs) = Ok a' -> exists ti, a' = Ints ti xs.
Proof.
  rewrite narrowed_Ints.
  destruct (get_downcast_type _ _ _) as [t'|e] eqn:Ht'; simpl; [|done].
  apply get_downcast_type_Ok in Ht' as (size & Hin & _).
  apply map_int_lookup in Hin as (ti & -> & _). intros [= <-]. eauto.
Qed.

(** C4 (amended). After [downcast] an integer column holds the values it
    held before, so its minimum and maximum are what they were, and the
    dtype of a numeric column that is not an unsigned integer one is at
    most as wide as before. *)
Theorem downcast_values_and_width (df : DataFrame) :
  wf_DataFrame df ->
  exists df',
    downcast df = Ok df' /\
    forall i n a,
      columns df !! i = Some (n, Numeric a) ->
      exists a',
        columns df' !! i = Some (n, Numeric a') /\
        (forall t xs,
            a = Ints t xs ->
            (exists t', a' = Ints t' xs) /\
            array_min a' = array_min a /\ array_max a' = array_max a) /\
        (is_unsigned_dtype a = false ->
         dtype_itemsize (array_dtype a') <= dtype_itemsize (array_dtype a)).
Proof.
  intros Hwf. exists (downcast_result df). split; [apply downcast_spec|].
  intros i n a Hi.
  assert (wf_array a) as Ha.
  { unfold wf_DataFrame in Hwf. rewrite Forall_forall in Hwf.
    apply list_elem_of_lookup_2 in Hi. by destruct (Hwf _ Hi). }
  assert (exists a', columns (downcast_result df) !! i = Some (n, Numeric a') /\
                     (a' = a \/ narrowed a = Ok a')) as (a' & Hi' & Ha').
  { rewrite downcast_result_lookup, Hi. simpl.
    case_decide; [|eauto]. destruct (narrowed a) as [a'|e]; eauto. }
  exists a'. split; [done|]. destruct Ha' as [->|Hn].
  - split; [|lia]. intros t xs ->. eauto.
  - split; [|intros Hsigned; by apply narrowed_itemsize].
    intros t xs ->. apply narrowed_Ints_Ok in Hn as [ti ->].
    split; [eauto | by destruct xs].
Qed.

Lemma downcast_values_and_width_witness :
  exists df',
    downcast sample_mixed = Ok df' /\
    forall i n a,
      columns sample_mixed !! i = Some (n, Numeric a) ->
      exists a',
        columns df' !! i = Some (n, Numeric a') /\
        (forall t xs,
            a = Ints t xs ->
            (exists t', a' = Ints t' xs) /\
            array_min a' = array_min a /\ array_max a' = array_max a) /\
        (is_unsigned_dtype a = false ->
         dtype_itemsize (array_dtype a') <= dtype_itemsize (array_dtype a)).
Proof.
  apply (downcast_values_and_width sample_mixed).
  wf_by_computation.
Defined.

(** The float64 column holding 0.1 becomes a float16 column whose value,
    and so whose minimum, is below 0.1; the uint8 column holding 200
    becomes an int16 column, twice as wide. *)
Lemma downcast_values_and_width_counterexample :
  wf_DataFrame sample_tenth /\
  exists df' a' b',
    downcast sample_tenth = Ok df' /\
    columns df' !! 0%nat = Some ("rate", Numeric a') /\
    scalar_le (array_min (Floats float64 [tenth])) (array_min a') = false /\
    scalar_le (array_max (Floats float64 [tenth])) (array_max a') = false /\
    columns df' !! 1%nat = Some ("level", Numeric b') /\
    dtype_itemsize (array_dtype (Ints uint8 [200])) <
      dtype_itemsize (array_dtype b').
Proof.
  split.
  - wf_by_computation.
  - exists {| index := [0];
              columns := [("rate", Numeric (Floats float16
                                      [S754_finite false 1638 (-14)]));
                          ("level", Numeric (Ints int16 [200]))] |},
           (Floats float16 [S754_finite false 1638 (-14)]),
           (Ints int16 [200]).
    repeat split; vm_compute; reflexivity.
Qed.

(** ** Running [downcast] again *)

Lemma narrowed_Floats_floating t xs a' :
  narrowed (Floats t xs) = Ok a' -> is_floating (array_dtype a') = true.
Proof.
  intros [_ Hn]%narrowed_Ok. simpl in Hn. destruct Hn as (t' & Ht' & ->).
  apply get_downcast_type_Ok in Ht' as (size & Hin & _).
  by apply map_float_lookup in Hin as (tf & -> & _).
Qed.

(** A second pass over a column that is not floating-point changes
    nothing. *)
Lemma downcast_series_idem s :
  is_floating (Series_dtype (downcast_series s)) = false ->
  downcast_series (downcast_series s) = downcast_series s.
Proof.
  destruct s as [[t xs|t xs|xs]|cells]; [| | |done].
  - intros _. simpl.
    destruct (narrowed (Ints t xs)) as [a'|e] eqn:Hn;
      [|simpl; by rewrite Hn].
    destruct (narrowed_Ints_Ok t xs a' Hn) as [ti ->].
    rewrite narrowed_Ints in Hn. simpl.
    assert (narrowed (Ints ti xs) = Ok (Ints ti xs)) as ->; [|done].
    rewrite narrowed_Ints.
    change (array_min (Ints ti xs)) with (array_min (Ints t xs)).
    change (array_max (Ints ti xs)) with (array_max (Ints t xs)).
    destruct (get_downcast_type _ _ _) as [t'|e]; simpl in *; [|done].
    destruct t' as [tj|tf]; [by simplify_eq|].
    unfold astype in Hn. case_decide; by simplify_eq/=.
  - simpl. destruct (narrowed (Floats t xs)) as [a'|e] eqn:Hn; [|done].
    simpl. by rewrite (narrowed_Floats_floating t xs a' Hn).
  - done.
Qed.

(** C5 (amended). A second run of [downcast] keeps the row labels and the
    column names of the first run's table, and every column of it that
    is not a floating-point one. *)
Theorem downcast_twice (df : DataFrame) :
  exists df1 df2,
    downcast df = Ok df1 /\
    downcast df1 = Ok df2 /\
    index df2 = index df1 /\
    names df2 = names df1 /\
    forall i n s,
      columns df1 !! i = Some (n, s) ->
      is_floating (Series_dtype s) = false ->
      columns df2 !! i = Some (n, s).
Proof.
  exists (downcast_result df), (downcast_result (downcast_result df)).
  split; [apply downcast_spec | split; [apply downcast_spec|]].
  split; [done | split; [apply names_downcast_result|]].
  intros i n s Hi Hs. rewrite downcast_result_lookup, Hi. simpl.
  case_decide as Hone; [|done].
  unfold downcast_result in Hone at 1. rewrite occurrences_narrow_where in Hone.
  rewrite downcast_result_lookup in Hi.
  destruct (columns df !! i) as [[n0 s0]|]; [|done]. simpl in Hi.
  case_decide; simplify_eq; try done.
  cbn [fst snd] in *. by rewrite downcast_series_idem.
Qed.

Lemma downcast_twice_witness :
  exists df1 df2,
    downcast sample_mixed = Ok df1 /\
    downcast df1 = Ok df2 /\
    index df2 = index df1 /\
    names df2 = names df1 /\
    forall i n s,
      columns df1 !! i = Some (n, s) ->
      is_floating (Series_dtype s) = false ->
      columns df2 !! i = Some (n, s).
Proof. apply (downcast_twice sample_mixed). Defined.

(** A float64 value just above the largest float16 makes the first run
    select float32; there it rounds to the largest float16, and the second
    run selects float16. *)
Lemma downcast_twice_counterexample :
  wf_DataFrame sample_above /\
  exists df1 df2,
    downcast sample_above = Ok df1 /\
    downcast df1 = Ok df2 /\
    Series_dtype <$> (snd <$> columns df1 !! 0%nat) = Some (Num (Floating float32)) /\
    Series_dtype <$> (snd <$> columns df2 !! 0%nat) = Some (Num (Floating float16)) /\
    df2 <> df1.
Proof.
  split; [wf_by_computation|].
  exists {| index := [0];
            columns := [("price", Numeric (Floats float32
                                     [S754_finite false 16769024 (-8)]))] |},
         {| index := [0];
            columns := [("price", Numeric (Floats float16
                                     [S754_finite false 2047 5]))] |}.
  repeat split; try (vm_compute; reflexivity). discriminate.
Qed.

(** ** The loader *)

(** C7. For a path that does not exist [load_data] fails with the "data
    path not found" assertion; it has then listed no directory and read
    no file, and there is no table. *)
Theorem load_data_missing_path (promote : list (option Series * nat) -> Series)
        (fs : FileSystem) (data_path : string) :
  fs !! data_path = None ->
  load_data promote fs data_path =
  (Raise (AssertionError (DataPathNotFound data_path)), []).
Proof.
  intros Hnone. unfold load_data, path_exists.
  rewrite bool_decide_eq_false_2; [done|].
  rewrite Hnone. by intros [? ?].
Qed.

Lemma load_data_missing_path_witness :
  load_data sample_promote sample_fs "elsewhere" =
  (Raise (AssertionError (DataPathNotFound "elsewhere")), []).
Proof.
  apply (load_data_missing_path sample_promote sample_fs "elsewhere").
  reflexivity.
Defined.

(** C10. For a directory without entries [load_data] fails in the
    concatenation, which has no tables to work on; the directory was
    listed, nothing was read, and there is no table. *)
Theorem load_data_empty_directory (promote : list (option Series * nat) -> Series)
        (fs : FileSystem) (data_path : string) :
  fs !! data_path = Some (Directory []) ->
  load_data promote fs data_path =
  (Raise (ValueError NoObjectsToConcatenate), [ListDir data_path]).
Proof.
  intros Hdir. unfold load_data, path_exists, listdir.
  rewrite bool_decide_eq_true_2 by (rewrite Hdir; eauto).
  by rewrite Hdir.
Qed.

Lemma load_data_empty_directory_witness :
  load_data sample_promote sample_fs "empty" =
  (Raise (ValueError NoObjectsToConcatenate), [ListDir "empty"]).
Proof.
  apply (load_data_empty_directory sample_promote sample_fs "empty").
  reflexivity.
Defined.

Lemma Series_append_length s1 s2 s :
  Series_append s1 s2 = Some s ->
  Series_length s = (Series_length s1 + Series_length s2)%nat.
Proof.
  destruct s1 as [[t xs|t xs|xs]|xs], s2 as [[t' ys|t' ys|ys]|ys]; simpl;
    try done; try case_decide; try done;
    intros [= <-]; simpl; by rewrite length_app.
Qed.

Lemma stack_alike_length pieces s :
  Forall (fun p => forall s, p.1 = Some s -> Series_length s = p.2) pieces ->
  stack_alike pieces = Some s ->
  Series_length s = sum_list pieces.*2.
Proof.
  intros Hpieces. revert s.
  induction Hpieces as [|[[s0|] n0] rest Hp _ IH]; intros s; simpl; [done| |done].
  specialize (Hp s0 eq_refl). simpl in Hp.
  destruct rest as [|p rest].
  - intros [= <-]. simpl. lia.
  - destruct (stack_alike (p :: rest)) as [s'|]; [|done]. simpl.
    intros Happ%Series_append_length. rewrite Happ, Hp, (IH s' eq_refl). done.
Qed.

Lemma piece_present c s df :
  NoDup (names df) -> (c, s) ∈ columns df -> piece c df = (Some s, nrows df).
Proof.
  unfold names, piece. intros Hnodup Hin. f_equal.
  induction (columns df) as [|[c' s'] cols IH]; [by apply elem_of_nil in Hin|].
  rewrite fmap_cons in Hnodup. apply NoDup_cons in Hnodup as [Hc' Hnodup].
  rewrite filter_cons. simpl.
  apply elem_of_cons in Hin as [[= <- <-]|Hin].
  - by rewrite decide_True.
  - rewrite decide_False; [by apply IH|].
    intros ->. apply Hc'. apply list_elem_of_fmap. by exists (c, s).
Qed.

(** The piece a well-formed table contributes has as many values as the
    table has rows. *)
Lemma piece_length c df :
  wf_DataFrame df ->
  forall s, (piece c df).1 = Some s -> Series_length s = (piece c df).2.
Proof.
  unfold wf_DataFrame, piece. simpl. rewrite Forall_forall. intros Hwf s Hs.
  destruct (filter _ (columns df)) as [|p ps] eqn:Hfilter; simplify_eq/=.
  assert (p ∈ filter (fun p => p.1 = c) (columns df)) as Hin
      by (rewrite Hfilter; left).
  apply list_elem_of_filter in Hin as [_ Hin]. by destruct (Hwf p Hin).
Qed.




Lemma filter_not_in_nil (l : list string) :
  filter (fun c : string => c ∉ []) l = l.
Proof.
  induction l as [|c cs IH]; [done|].
  rewrite filter_cons, decide_True by (by intros ?%elem_of_nil).
  by rewrite IH.
Qed.


Lemma load_loop_spec fs data_path cvs_files dfs :
  Forall2 (fun file df => fs !! path_join data_path file = Some (File (Ok df)))
          cvs_files dfs ->
  forall dataframes log,
    load_loop fs data_path cvs_files dataframes log =
    (Ok (dataframes ++ dfs),
     log ++ ((fun file => ReadCsv (path_join data_path file)) <$> cvs_files)).
Proof.
  induction 1 as [|file df files dfs Hfile _ IH]; intros dataframes log; simpl.
  - by rewrite !app_nil_r.
  - unfold read_csv. rewrite Hfile, IH, <- !app_assoc. done.
Qed.











(** * Further properties *)

(** ** The order on the values of scalars *)

(** Two finite values compare as their mantissas do at any exponent below
    both. *)
Lemma ext_le_EFin m1 e1 m2 e2 e0 :
  e0 <= e1 -> e0 <= e2 ->
  ext_le (EFin m1 e1) (EFin m2 e2) = true <->
  m1 * 2 ^ (e1 - e0) <= m2 * 2 ^ (e2 - e0).
Proof.
  intros H1 H2. unfold ext_le. rewrite Z.leb_le.
  set (e := Z.min e1 e2).
  assert (e0 <= e /\ e <= e1 /\ e <= e2) as (? & ? & ?) by (unfold e; lia).
  replace (e1 - e0) with ((e1 - e) + (e - e0)) by lia.
  replace (e2 - e0) with ((e2 - e) + (e - e0)) by lia.
  rewrite !Z.pow_add_r, !Z.mul_assoc by lia.
  assert (0 < 2 ^ (e - e0)) by (apply Z.pow_pos_nonneg; lia).
  split; [intros; by apply Z.mul_le_mono_nonneg_r; [lia|] |].
  intros Hle. by apply Z.mul_le_mono_pos_r in Hle.
Qed.

Lemma ext_le_trans a b c :
  ext_le a b = true -> ext_le b c = true -> ext_le a c = true.
Proof.
  destruct a as [| | |m1 e1], b as [| | |m2 e2], c as [| | |m3 e3];
    try done.
  set (e0 := Z.min e1 (Z.min e2 e3)).
  rewrite (ext_le_EFin m1 e1 m2 e2 e0), (ext_le_EFin m2 e2 m3 e3 e0),
    (ext_le_EFin m1 e1 m3 e3 e0) by (unfold e0; lia).
  assert (0 < 2 ^ (e1 - e0) /\ 0 < 2 ^ (e2 - e0) /\ 0 < 2 ^ (e3 - e0))
    as (? & ? & ?)
      by (repeat split; apply Z.pow_pos_nonneg; unfold e0; lia).
  intros H12 H23.
  apply (Z.mul_le_mono_pos_r _ _ (2 ^ (e2 - e0))); [done|]. nia.
Qed.

Lemma ext_le_total a b :
  a <> ENaN -> b <> ENaN -> ext_le a b = true \/ ext_le b a = true.
Proof.
  destruct a as [| | |m1 e1], b as [| | |m2 e2]; try done; auto.
  intros _ _. rewrite (ext_le_EFin m1 e1 m2 e2 (Z.min e1 e2)),
    (ext_le_EFin m2 e2 m1 e1 (Z.min e1 e2)) by lia. lia.
Qed.

Lemma ext_le_refl a : a <> ENaN -> ext_le a a = true.
Proof. intros Ha. by destruct (ext_le_total a a Ha Ha). Qed.

Lemma ext_le_not_nan a b : ext_le a b = true -> a <> ENaN /\ b <> ENaN.
Proof. by destruct a, b. Qed.

Lemma scalar_le_trans a b c :
  scalar_le a b = true -> scalar_le b c = true -> scalar_le a c = true.
Proof. apply ext_le_trans. Qed.

(** ** More on type selection *)

Lemma fits_nan_r dtype c_min : fits dtype c_min nan = false.
Proof. unfold fits, scalar_le; simpl. apply andb_false_r. Qed.

(** X1. A range with a NaN end fits nothing: whatever the mapping,
    [get_downcast_type] raises the "no suitable dtype" error. *)
Theorem get_downcast_type_nan (type_map : gmap Z numtype) (c_min c_max : scalar) :
  c_min = nan \/ c_max = nan ->
  get_downcast_type type_map c_min c_max =
  Raise (ValueError (NoSuitableDtype c_min c_max)).
Proof.
  intros Hnan. apply get_downcast_type_Raise. split; [done|].
  intros size dtype _.
  destruct Hnan as [-> | ->]; [apply fits_nan_l | apply fits_nan_r].
Qed.

Lemma get_downcast_type_nan_witness :
  get_downcast_type map_float nan (SFloat one_and_half) =
  Raise (ValueError (NoSuitableDtype nan (SFloat one_and_half))).
Proof. apply (get_downcast_type_nan map_float nan (SFloat one_and_half)). by left. Defined.

(** A type that fits a range fits every range within it. *)
Lemma fits_within dtype lo hi lo' hi' :
  scalar_le lo' lo = true -> scalar_le hi hi' = true ->
  fits dtype lo' hi' = true -> fits dtype lo hi = true.
Proof.
  intros Hlo Hhi [Hmin Hmax]%fits_iff. apply fits_iff.
  split; eauto using scalar_le_trans.
Qed.

(** X2. Type selection is monotone in the range, for a mapping and
    scalars of one kind (integer types and integers, or floating types
    and numpy floating scalars): when a type is selected for a range, one
    is selected for every range within it, under a size that is not
    larger. *)
Theorem get_downcast_type_monotone (type_map : gmap Z numtype)
        (lo hi lo' hi' : scalar) (t' : numtype) :
  one_kind type_map [lo; hi; lo'; hi'] ->
  scalar_le lo' lo = true ->
  scalar_le hi hi' = true ->
  get_downcast_type type_map lo' hi' = Ok t' ->
  exists t size size',
    get_downcast_type type_map lo hi = Ok t /\
    type_map !! size = Some t /\
    type_map !! size' = Some t' /\
    size <= size'.
Proof.
  intros _ Hlo Hhi (size' & Hin' & Hfit' & _)%get_downcast_type_Ok.
  pose proof (fits_within t' lo hi lo' hi' Hlo Hhi Hfit') as Hfit.
  destruct (get_downcast_type type_map lo hi) as [t|e] eqn:Ht.
  - pose proof Ht as (size & Hin & _ & Hbelow)%get_downcast_type_Ok.
    exists t, size, size'. repeat split; try done.
    destruct (Z.le_gt_cases size size') as [?|Hlt]; [done|].
    by rewrite (Hbelow _ _ Hin' Hlt) in Hfit.
  - apply get_downcast_type_Raise in Ht as [_ Hnone].
    by rewrite (Hnone _ _ Hin') in Hfit.
Qed.

Lemma get_downcast_type_monotone_witness :
  exists t size size',
    get_downcast_type map_int (SInt (-100)) (SInt 100) = Ok t /\
    map_int !! size = Some t /\
    map_int !! size' = Some (Integer int16) /\
    size <= size'.
Proof.
  apply (get_downcast_type_monotone map_int (SInt (-100)) (SInt 100)
           (SInt (-1000)) (SInt 1000) (Integer int16)); [|reflexivity..].
  left. split.
  - apply (bool_decide_unpack _). vm_compute. reflexivity.
  - repeat constructor.
Defined.

(** ** Reductions as bounds *)

Lemma float_le_not_nan a b :
  float_le a b = true -> is_nan a = false /\ is_nan b = false.
Proof. by destruct a as [|[]| |], b as [|[]| |]. Qed.

Lemma float_ext_nan f : float_ext f = ENaN <-> is_nan f = true.
Proof. by destruct f as [|[]| |]. Qed.

Lemma float_le_total a b :
  is_nan a = false -> is_nan b = false ->
  float_le a b = true \/ float_le b a = true.
Proof.
  intros Ha Hb. apply ext_le_total; rewrite float_ext_nan; congruence.
Qed.

Lemma float_le_refl a : is_nan a = false -> float_le a a = true.
Proof. intros Ha. by destruct (float_le_total a a Ha Ha). Qed.

Lemma float_le_trans a b c :
  float_le a b = true -> float_le b c = true -> float_le a c = true.
Proof. apply ext_le_trans. Qed.

(** The minimum is below every value that is not missing. *)
Lemma nanmin_le xs x :
  x ∈ xs -> is_nan x = false -> float_le (nanmin xs) x = true.
Proof.
  induction xs as [|y ys IH]; [by intros ?%elem_of_nil|].
  intros Hin Hx. simpl. fold (nanmin ys).
  apply elem_of_cons in Hin as [<-|Hin].
  - rewrite Hx. destruct (is_nan (nanmin ys)) eqn:Hm; [by apply float_le_refl|].
    destruct (float_le x (nanmin ys)) eqn:Hle; [by apply float_le_refl|].
    destruct (float_le_total x (nanmin ys) Hx Hm); congruence.
  - specialize (IH Hin Hx). destruct (float_le_not_nan _ _ IH) as [Hm _].
    rewrite Hm. destruct (is_nan y); [done|].
    destruct (float_le y (nanmin ys)) eqn:Hle; [|done].
    by apply (float_le_trans y (nanmin ys) x).
Qed.

Lemma nanmax_ge xs x :
  x ∈ xs -> is_nan x = false -> float_le x (nanmax xs) = true.
Proof.
  induction xs as [|y ys IH]; [by intros ?%elem_of_nil|].
  intros Hin Hx. simpl. fold (nanmax ys).
  apply elem_of_cons in Hin as [<-|Hin].
  - rewrite Hx. destruct (is_nan (nanmax ys)) eqn:Hm; [by apply float_le_refl|].
    destruct (float_le (nanmax ys) x) eqn:Hle; [by apply float_le_refl|].
    destruct (float_le_total x (nanmax ys) Hx Hm); congruence.
  - specialize (IH Hin Hx). destruct (float_le_not_nan _ _ IH) as [_ Hm].
    rewrite Hm. destruct (is_nan y); [done|].
    destruct (float_le (nanmax ys) y) eqn:Hle; [|done].
    by apply (float_le_trans x (nanmax ys) y).
Qed.

(** A type fits the range of an integer column exactly when it holds its
    values. *)
Lemma fits_holds_ints ti t xs :
  fits (Integer ti) (array_min (Ints t xs)) (array_max (Ints t xs)) = true <->
  holds_ints ti xs.
Proof.
  unfold holds_ints. destruct (decide (xs = [])) as [->|Hne].
  - simpl. rewrite fits_nan_l. split; [done | by intros [? _]].
  - destruct (Ints_min_max t xs Hne) as (lo & hi & Hlo & Hhi & Hloin & Hhiin).
    pose proof (Ints_between t xs lo hi Hlo Hhi) as Hbetween.
    rewrite Hlo, Hhi, fits_Integer. rewrite Forall_forall in Hbetween.
    split.
    + intros [? ?]. split; [done|]. apply Forall_forall. intros x Hx.
      specialize (Hbetween x Hx). unfold in_range. lia.
    + intros [_ Hall]. rewrite Forall_forall in Hall.
      destruct (Hall lo Hloin), (Hall hi Hhiin). lia.
Qed.

(** A type fits the range of a floating column exactly when it holds its
    values. *)
Lemma fits_holds_floats tf t xs :
  fits (Floating tf) (array_min (Floats t xs)) (array_max (Floats t xs)) = true <->
  holds_floats tf xs.
Proof.
  unfold holds_floats. rewrite fits_iff. simpl.
  change (scalar_le (SFloat ?a) (SFloat ?b)) with (float_le a b).
  split.
  - intros [Hmin Hmax].
    destruct (float_le_not_nan _ _ Hmin) as [_ Hnan].
    split.
    + exists (nanmin xs). split; [|done].
      destruct (nanmin_elem xs) as [Heq|?]; [by rewrite Heq in Hnan | done].
    + intros x Hx Hxnan. split.
      * eapply float_le_trans; [exact Hmin | by apply nanmin_le].
      * eapply float_le_trans; [by apply nanmax_ge | exact Hmax].
  - intros [(x & Hx & Hxnan) Hall].
    destruct (float_le_not_nan _ _ (nanmin_le xs x Hx Hxnan)) as [Hmin _].
    destruct (float_le_not_nan _ _ (nanmax_ge xs x Hx Hxnan)) as [_ Hmax].
    destruct (nanmin_elem xs) as [Heq|Hminin]; [by rewrite Heq in Hmin|].
    destruct (nanmax_elem xs) as [Heq|Hmaxin]; [by rewrite Heq in Hmax|].
    split; [by apply (Hall _ Hminin) | by apply (Hall _ Hmaxin)].
Qed.

(** ** What [downcast] makes of a column, by its values *)

(** X3. An integer column of a name of its own becomes a column of the
    narrowest signed type that holds all its values, with the values it
    had; when no signed type holds them (the column has no row, or an
    unsigned value above the 8-byte signed maximum) it stays as it is. *)
Theorem downcast_integer_column (df : DataFrame) (i : nat) (n : string)
        (t : int_type) (xs : list Z) :
  columns df !! i = Some (n, Numeric (Ints t xs)) ->
  occurrences n df = 1%nat ->
  exists df',
    downcast df = Ok df' /\
    ((exists ti,
         is_signed ti = true /\
         columns df' !! i = Some (n, Numeric (Ints ti xs)) /\
         holds_ints ti xs /\
         forall tj, is_signed tj = true -> holds_ints tj xs ->
                    int_itemsize ti <= int_itemsize tj) \/
     (columns df' !! i = Some (n, Numeric (Ints t xs)) /\
      forall tj, is_signed tj = true -> ~ holds_ints tj xs)).
Proof.
  intros Hi Hone. exists (downcast_result df). split; [apply downcast_spec|].
  rewrite downcast_result_lookup, Hi. cbn [fmap option_fmap option_map fst snd].
  rewrite decide_True by done.
  assert (downcast_series (Numeric (Ints t xs)) =
            match narrowed (Ints t xs) with
            | Ok a' => Numeric a'
            | Raise _ => Numeric (Ints t xs)
            end) as -> by done.
  rewrite narrowed_Ints.
  destruct (get_downcast_type _ _ _) as [t'|e] eqn:Ht'.
  - left. apply get_downcast_type_Ok in Ht' as (size & Hin & Hfit & Hbelow).
    apply map_int_lookup in Hin as (ti & -> & Hsigned & ->).
    exists ti. split; [done | split; [done | split]].
    + by apply (fits_holds_ints ti t xs).
    + intros tj Hj Hholds. apply (fits_holds_ints tj t xs) in Hholds.
      destruct (Z.le_gt_cases (int_itemsize ti) (int_itemsize tj)) as [?|Hlt];
        [done|].
      rewrite (Hbelow (int_itemsize tj) (Integer tj)) in Hholds; [done| |lia].
      apply map_int_lookup. eauto.
  - right. split; [done|].
    apply get_downcast_type_Raise in Ht' as [_ Hnone].
    intros tj Hj Hholds%(fits_holds_ints tj t xs).
    rewrite (Hnone (int_itemsize tj) (Integer tj)) in Hholds; [done|].
    apply map_int_lookup. eauto.
Qed.

Lemma downcast_integer_column_witness :
  exists df',
    downcast sample_tenth = Ok df' /\
    ((exists ti,
         is_signed ti = true /\
         columns df' !! 1%nat = Some ("level", Numeric (Ints ti [200])) /\
         holds_ints ti [200] /\
         forall tj, is_signed tj = true -> holds_ints tj [200] ->
                    int_itemsize ti <= int_itemsize tj) \/
     (columns df' !! 1%nat = Some ("level", Numeric (Ints uint8 [200])) /\
      forall tj, is_signed tj = true -> ~ holds_ints tj [200])).
Proof.
  apply (downcast_integer_column sample_tenth 1 "level" uint8 [200]);
    reflexivity.
Defined.

Lemma astype_Floats t xs tf :
  astype (Floats t xs) (Floating tf) =
  Ok (Floats tf (if decide (t = tf) then xs else map (round_to tf) xs)).
Proof.
  unfold astype. simpl. destruct (decide (t = tf)) as [->|Hne].
  - by rewrite decide_True.
  - rewrite decide_False; [done | congruence].
Qed.

(** X4. A floating-point column of a name of its own becomes a column of
    the narrowest floating type whose range holds its values that are not
    missing, each value rounded to that type; when no type holds them
    (every value is missing, or one is an infinity) it stays as it
    is. *)
Theorem downcast_float_column (df : DataFrame) (i : nat) (n : string)
        (t : float_type) (xs : list spec_float) :
  columns df !! i = Some (n, Numeric (Floats t xs)) ->
  occurrences n df = 1%nat ->
  exists df',
    downcast df = Ok df' /\
    ((exists tf,
         columns df' !! i =
           Some (n, Numeric (Floats tf (if decide (t = tf) then xs
                                        else map (round_to tf) xs))) /\
         holds_floats tf xs /\
         forall tf', holds_floats tf' xs ->
                     float_itemsize tf <= float_itemsize tf') \/
     (columns df' !! i = Some (n, Numeric (Floats t xs)) /\
      forall tf, ~ holds_floats tf xs)).
Proof.
  intros Hi Hone. exists (downcast_result df). split; [apply downcast_spec|].
  rewrite downcast_result_lookup, Hi. cbn [fmap option_fmap option_map fst snd].
  rewrite decide_True by done.
  assert (downcast_series (Numeric (Floats t xs)) =
            match narrowed (Floats t xs) with
            | Ok a' => Numeric a'
            | Raise _ => Numeric (Floats t xs)
            end) as -> by done.
  rewrite narrowed_catalog. cbn [catalog].
  destruct (get_downcast_type _ _ _) as [t'|e] eqn:Ht'.
  - left. apply get_downcast_type_Ok in Ht' as (size & Hin & Hfit & Hbelow).
    apply map_float_lookup in Hin as (tf & -> & ->).
    exists tf. cbn [mbind result_bind]. rewrite astype_Floats.
    split; [done | split].
    + by apply (fits_holds_floats tf t xs).
    + intros tf' Hholds. apply (fits_holds_floats tf' t xs) in Hholds.
      destruct (Z.le_gt_cases (float_itemsize tf) (float_itemsize tf'))
        as [?|Hlt]; [done|].
      rewrite (Hbelow (float_itemsize tf') (Floating tf')) in Hholds;
        [done| |lia].
      apply map_float_lookup. eauto.
  - right. split; [done|].
    apply get_downcast_type_Raise in Ht' as [_ Hnone].
    intros tf Hholds%(fits_holds_floats tf t xs).
    rewrite (Hnone (float_itemsize tf) (Floating tf)) in Hholds; [done|].
    apply map_float_lookup. eauto.
Qed.

Lemma downcast_float_column_witness :
  exists df',
    downcast sample_tenth = Ok df' /\
    ((exists tf,
         columns df' !! 0%nat =
           Some ("rate", Numeric (Floats tf (if decide (float64 = tf) then [tenth]
                                             else map (round_to tf) [tenth]))) /\
         holds_floats tf [tenth] /\
         forall tf', holds_floats tf' [tenth] ->
                     float_itemsize tf <= float_itemsize tf') \/
     (columns df' !! 0%nat = Some ("rate", Numeric (Floats float64 [tenth])) /\
      forall tf, ~ holds_floats tf [tenth])).
Proof.
  apply (downcast_float_column sample_tenth 0 "rate" float64 [tenth]);
    reflexivity.
Defined.

(** ** Which columns [downcast] skips *)

(** X5. In a well-formed table a signed-integer or floating-point column
    of a name of its own is converted to the type selected for it exactly
    when its minimum and maximum are finite numbers; otherwise (no value
    that is not missing, or an infinity) the selection raises and the
    column stays as it is. *)
Theorem downcast_converts_iff_finite (df : DataFrame) (i : nat) (n : string)
        (a : ndarray) (type_map : gmap Z numtype) :
  wf_DataFrame df ->
  columns df !! i = Some (n, Numeric a) ->
  occurrences n df = 1%nat ->
  catalog a = Some type_map ->
  is_unsigned_dtype a = false ->
  exists df' a',
    downcast df = Ok df' /\
    columns df' !! i = Some (n, Numeric a') /\
    ((is_finite_scalar (array_min a) = true /\
      is_finite_scalar (array_max a) = true /\
      exists t, get_downcast_type type_map (array_min a) (array_max a) = Ok t /\
                array_dtype a' = Num t) \/
     ((is_finite_scalar (array_min a) = false \/
       is_finite_scalar (array_max a) = false) /\
      get_downcast_type type_map (array_min a) (array_max a) =
        Raise (ValueError (NoSuitableDtype (array_min a) (array_max a))) /\
      a' = a)).
Proof.
  intros Hwf Hi Hone Hcat Hsigned.
  assert (wf_array a) as Ha.
  { unfold wf_DataFrame in Hwf. rewrite Forall_forall in Hwf.
    apply list_elem_of_lookup_2 in Hi. by destruct (Hwf _ Hi). }
  destruct (get_downcast_type type_map (array_min a) (array_max a))
    as [t|e] eqn:Ht.
  - destruct (narrowed_selected a type_map t Hcat Ht) as (a' & Hn & Hdtype & _).
    destruct (selected_finite a type_map t Hcat Ht) as [Hmin Hmax].
    exists (downcast_result df), a'. split; [apply downcast_spec | split].
    + rewrite downcast_result_lookup, Hi. simpl.
      rewrite decide_True by done. by rewrite Hn.
    + left. eauto.
  - pose proof Ht as [-> Hnone]%get_downcast_type_Raise.
    exists (downcast_result df), a. split; [apply downcast_spec | split].
    + pose proof (narrowed_unfit a type_map Hcat Hnone) as Hsame.
      rewrite downcast_result_lookup, Hi. simpl in *.
      rewrite decide_True by done. by rewrite Hsame.
    + right. split; [|done].
      destruct (is_finite_scalar (array_min a)) eqn:Hmin; [|by left].
      destruct (is_finite_scalar (array_max a)) eqn:Hmax; [|by right].
      pose proof (wf_array_own_range a Ha Hmin Hmax) as Hown.
      destruct (catalog_own a type_map Hcat Hsigned) as (t & Hdtype & Hentry).
      rewrite Hdtype in Hown. simpl in Hown.
      by rewrite (Hnone _ _ Hentry) in Hown.
Qed.

Lemma downcast_converts_iff_finite_witness :
  exists df' a',
    downcast sample_infinite = Ok df' /\
    columns df' !! 0%nat = Some ("ratio", Numeric a') /\
    let a := Floats float64 [S754_infinity false] in
    ((is_finite_scalar (array_min a) = true /\
      is_finite_scalar (array_max a) = true /\
      exists t, get_downcast_type map_float (array_min a) (array_max a) = Ok t /\
                array_dtype a' = Num t) \/
     ((is_finite_scalar (array_min a) = false \/
       is_finite_scalar (array_max a) = false) /\
      get_downcast_type map_float (array_min a) (array_max a) =
        Raise (ValueError (NoSuitableDtype (array_min a) (array_max a))) /\
      a' = a)).
Proof.
  apply (downcast_converts_iff_finite sample_infinite 0 "ratio"
           (Floats float64 [S754_infinity false]) map_float);
    try reflexivity.
  wf_by_computation.
Defined.

(** X6. Columns that share their name are skipped, numeric or not:
    [df[c]] is then a sub-table, which [is_numeric_dtype] rejects. *)
Theorem downcast_skips_shared_name (df : DataFrame) (i : nat) (n : string)
        (s : Series) :
  columns df !! i = Some (n, s) ->
  occurrences n df <> 1%nat ->
  exists df', downcast df = Ok df' /\ columns df' !! i = Some (n, s).
Proof.
  intros Hi Hshared. exists (downcast_result df). split; [apply downcast_spec|].
  rewrite downcast_result_lookup, Hi. simpl. by rewrite decide_False.
Qed.

(** X7. A boolean column counts as numeric but is neither an integer nor
    a floating-point column: it is left as it is. *)
Theorem downcast_keeps_bool (df : DataFrame) (i : nat) (n : string)
        (xs : list bool) :
  columns df !! i = Some (n, Numeric (Bools xs)) ->
  is_numeric_dtype (ASeries (Numeric (Bools xs))) = true /\
  exists df',
    downcast df = Ok df' /\ columns df' !! i = Some (n, Numeric (Bools xs)).
Proof.
  intros Hi. split; [done|].
  exists (downcast_result df). split; [apply downcast_spec|].
  by destruct (downcast_result_column df i n _ Hi) as (s' & Hi' & [->| ->]).
Qed.

Lemma downcast_series_no_rows s :
  Series_length s = 0%nat -> downcast_series s = s.
Proof.
  destruct s as [[t xs|t xs|xs]|cells]; simpl; [| |done|done];
    intros ->%nil_length_inv; reflexivity.
Qed.

(** X8. A well-formed table without rows is left as it is: the minimum
    and maximum of a column without values are NaN, which fits no
    type. *)
Theorem downcast_no_rows (df : DataFrame) :
  wf_DataFrame df -> nrows df = 0%nat -> downcast df = Ok df.
Proof.
  intros Hwf Hrows. rewrite downcast_spec. f_equal.
  apply narrow_where_id. intros p Hp _.
  unfold wf_DataFrame in Hwf. rewrite Forall_forall in Hwf.
  destruct (Hwf p Hp) as [Hlen _].
  apply downcast_series_no_rows. by rewrite Hlen.
Qed.

Lemma downcast_skips_shared_name_witness :
  exists df',
    downcast sample_shared = Ok df' /\
    columns df' !! 1%nat = Some ("visits", Numeric (Ints int64 [2])).
Proof.
  apply (downcast_skips_shared_name sample_shared 1 "visits"
           (Numeric (Ints int64 [2]))); [reflexivity|].
  vm_compute. discriminate.
Defined.

Lemma downcast_keeps_bool_witness :
  is_numeric_dtype (ASeries (Numeric (Bools [true; false]))) = true /\
  exists df',
    downcast sample_mixed = Ok df' /\
    columns df' !! 4%nat = Some ("seen", Numeric (Bools [true; false])).
Proof.
  apply (downcast_keeps_bool sample_mixed 4 "seen" [true; false]). reflexivity.
Defined.

Lemma downcast_no_rows_witness : downcast sample_no_rows = Ok sample_no_rows.
Proof.
  apply (downcast_no_rows sample_no_rows); [wf_by_computation | reflexivity].
Defined.

(** ** More on the loader *)

Lemma load_loop_failure fs data_path before bad after dfs e :
  Forall2 (fun file df => fs !! path_join data_path file = Some (File (Ok df)))
          before dfs ->
  read_csv fs (path_join data_path bad) = Raise e ->
  forall dataframes log,
    load_loop fs data_path (before ++ bad :: after) dataframes log =
    (Raise e,
     log ++ ((fun file => ReadCsv (path_join data_path file))
               <$> before ++ [bad])).
Proof.
  intros Hbefore Hbad.
  induction Hbefore as [|file df files dfs Hfile _ IH];
    intros dataframes log; simpl.
  - by rewrite Hbad.
  - unfold read_csv at 1. rewrite Hfile, IH, <- !app_assoc. done.
Qed.

(** X9. When an entry of the directory cannot be read as a table (the
    parser fails, or the entry is a directory), [load_data] raises that
    error: the entries before it were read, in listing order, the ones
    after it never are, and there is no table. *)
Theorem load_data_propagates_failure
        (promote : list (option Series * nat) -> Series)
        (fs : FileSystem) (data_path : string)
        (before : list string) (bad : string) (after : list string)
        (dfs : list DataFrame) (e : exception) :
  fs !! data_path = Some (Directory (before ++ bad :: after)) ->
  Forall2 (fun file df => fs !! path_join data_path file = Some (File (Ok df)))
          before dfs ->
  read_csv fs (path_join data_path bad) = Raise e ->
  load_data promote fs data_path =
  (Raise e, full_log data_path (before ++ [bad])).
Proof.
  intros Hdir Hbefore Hbad. unfold load_data, path_exists, listdir.
  rewrite Hdir. rewrite bool_decide_eq_true_2 by eauto. simpl negb. cbv iota.
  by rewrite (load_loop_failure fs data_path before bad after dfs e).
Qed.

Lemma load_data_propagates_failure_witness :
  load_data sample_promote sample_fs_more "broken" =
  (Raise (ParserError (Other "bad line")),
   full_log "broken" (["jan.tsv"] ++ ["bad.tsv"])).
Proof.
  apply (load_data_propagates_failure sample_promote sample_fs_more "broken"
           ["jan.tsv"] "bad.tsv" ["feb.tsv"] [sample_january]).
  - reflexivity.
  - repeat (constructor; [reflexivity|]). constructor.
  - reflexivity.
Defined.

(** X10. A path that exists but names a file passes the existence check;
    the listing then fails with "not a directory", nothing is read and
    there is no table. *)
Theorem load_data_not_a_directory
        (promote : list (option Series * nat) -> Series)
        (fs : FileSystem) (data_path : string) (parsed : result DataFrame) :
  fs !! data_path = Some (File parsed) ->
  load_data promote fs data_path =
  (Raise (NotADirectoryError data_path), [ListDir data_path]).
Proof.
  intros Hfile. unfold load_data, path_exists, listdir. rewrite Hfile.
  by rewrite bool_decide_eq_true_2 by eauto.
Qed.

Lemma load_data_not_a_directory_witness :
  load_data sample_promote sample_fs_more "notes.txt" =
  (Raise (NotADirectoryError "notes.txt"), [ListDir "notes.txt"]).
Proof.
  apply (load_data_not_a_directory sample_promote sample_fs_more "notes.txt"
           (Ok sample_january)).
  reflexivity.
Defined.

(** *** The names of the loaded table *)

Lemma union_fold_prefix acc (dfs : list DataFrame) :
  acc `prefix_of`
    foldl (fun acc df => acc ++ filter (fun c => c ∉ acc) (names df)) acc dfs.
Proof.
  revert acc. induction dfs as [|df dfs IH]; intros acc; simpl; [done|].
  etransitivity; [|apply IH]. by apply prefix_app_r.
Qed.

Lemma union_fold_elem acc (dfs : list DataFrame) c :
  c ∈ foldl (fun acc df => acc ++ filter (fun c => c ∉ acc) (names df)) acc dfs
  <-> c ∈ acc \/ exists df, df ∈ dfs /\ c ∈ names df.
Proof.
  revert acc. induction dfs as [|df dfs IH]; intros acc; simpl.
  - split; [by left|]. intros [?|(df & Hdf & _)]; [done|].
    by apply elem_of_nil in Hdf.
  - rewrite IH, elem_of_app, list_elem_of_filter. split.
    + intros [[?|[_ ?]]|(df' & ? & ?)]; eauto.
      * right. exists df. split; [left | done].
      * right. exists df'. split; [by right | done].
    + intros [?|(df' & [->|?]%elem_of_cons & Hc)]; eauto.
      destruct (decide (c ∈ acc)); eauto.
Qed.

Lemma union_fold_NoDup acc (dfs : list DataFrame) :
  NoDup acc -> Forall (fun df => NoDup (names df)) dfs ->
  NoDup (foldl (fun acc df => acc ++ filter (fun c => c ∉ acc) (names df))
               acc dfs).
Proof.
  intros Hacc Hdfs. revert acc Hacc.
  induction Hdfs as [|df dfs Hdf _ IH]; intros acc Hacc; simpl; [done|].
  apply IH. apply NoDup_app. split; [done | split].
  - intros c Hc [Hnot _]%list_elem_of_filter. by apply Hnot.
  - by apply NoDup_filter.
Qed.

Lemma unseen_ext (seen seen' l : list string) :
  (forall c, c ∈ seen <-> c ∈ seen') -> unseen seen l = unseen seen' l.
Proof.
  revert seen seen'. induction l as [|c l IH]; intros seen seen' Hseen; [done|].
  simpl. destruct (decide (c ∈ seen)) as [Hc|Hc].
  - rewrite decide_True by by apply Hseen. by apply IH.
  - rewrite decide_False by (by rewrite <- Hseen). f_equal. apply IH.
    intros c'. rewrite !elem_of_cons. by rewrite Hseen.
Qed.

Lemma unseen_app (seen l1 l2 : list string) :
  unseen seen (l1 ++ l2) = unseen seen l1 ++ unseen (seen ++ l1) l2.
Proof.
  revert seen. induction l1 as [|c l1 IH]; intros seen.
  - by rewrite app_nil_r.
  - simpl. destruct (decide (c ∈ seen)) as [Hc|Hc].
    + rewrite IH. f_equal. apply unseen_ext. intros c'.
      rewrite !elem_of_app, elem_of_cons. intuition (subst; auto).
    + rewrite IH. simpl. do 2 f_equal. apply unseen_ext. intros c'.
      rewrite !elem_of_app, !elem_of_cons, elem_of_app. intuition (subst; auto).
Qed.

Lemma unseen_filter (seen seen' l : list string) :
  NoDup l -> (forall c, c ∈ l -> (c ∈ seen <-> c ∈ seen')) ->
  unseen seen l = filter (fun c => c ∉ seen') l.
Proof.
  intros Hnodup. revert seen.
  induction Hnodup as [|c l Hc Hnodup IH]; intros seen Hseen; [done|].
  simpl. rewrite filter_cons.
  assert (forall seen0, (forall c', c' ∈ l -> (c' ∈ seen0 <-> c' ∈ seen')) ->
                        unseen seen0 l = filter (fun c => c ∉ seen') l) as IH'
      by (intros; by apply IH).
  destruct (decide (c ∈ seen)) as [Hin|Hin].
  - rewrite decide_False by (intros Hnot; apply Hnot, Hseen; [left | done]).
    apply IH'. intros c' Hc'. apply Hseen. by right.
  - rewrite decide_True
      by (intros Hin'; apply Hin, Hseen; [left | done]).
    f_equal. apply IH'. intros c' Hc'. rewrite elem_of_cons.
    rewrite <- (Hseen c') by by right. split; [|by right].
    intros [->|?]; [done | done].
Qed.

(** The names a concatenation collects are those of the tables at their
    first occurrence. *)
Lemma union_fold_unseen acc (dfs : list DataFrame) :
  Forall (fun df => NoDup (names df)) dfs ->
  foldl (fun acc df => acc ++ filter (fun c => c ∉ acc) (names df)) acc dfs =
  acc ++ unseen acc (mjoin (names <$> dfs)).
Proof.
  intros Hdfs. revert acc.
  induction Hdfs as [|df dfs Hdf _ IH]; intros acc; simpl.
  - by rewrite app_nil_r.
  - rewrite IH, unseen_app, <- app_assoc. do 2 f_equal.
    + symmetry. by apply unseen_filter.
    + apply unseen_ext. intros c.
      rewrite !elem_of_app, list_elem_of_filter.
      destruct (decide (c ∈ acc)); intuition auto.
Qed.

Lemma piece_absent c df : c ∉ names df -> piece c df = (None, nrows df).
Proof.
  unfold names, piece. intros Hc. f_equal.
  induction (columns df) as [|[c' s'] cols IH]; [done|].
  rewrite fmap_cons, not_elem_of_cons in Hc. destruct Hc as [Hne Hc].
  rewrite filter_cons. simpl. rewrite decide_False by done. by apply IH.
Qed.

Lemma pieces_contributed c (dfs : list DataFrame) ps :
  Forall (fun df => NoDup (names df)) dfs ->
  Forall2 (contributes c) dfs ps -> piece c <$> dfs = ps.
Proof.
  intros Hnodup Hps. induction Hps as [|df [o n] dfs ps [Hn Ho] _ IH]; [done|].
  apply Forall_cons in Hnodup as [Hdf Hnodup]. simpl in Hn, Ho.
  rewrite fmap_cons, IH by done. f_equal. subst n. destruct o as [s|].
  - by apply piece_present.
  - by apply piece_absent.
Qed.

(** Pieces with a gap are not stacked as they are. *)
Lemma stack_alike_gap ps :
  Exists (fun p => p.1 = None) ps -> stack_alike ps = None.
Proof.
  induction 1 as [[o n] ps Ho|[o n] ps Hps IH].
  - simpl in Ho. by subst o.
  - destruct o as [s|]; [|done].
    destruct ps as [|p ps]; [by apply Exists_nil in Hps|].
    change (stack_alike ((Some s, n) :: p :: ps))
      with (s' ← stack_alike (p :: ps); Series_append s s').
    by rewrite IH.
Qed.

(** X11. When the files differ in their columns, the loaded table has
    every column name of every file once, in the order in which the names
    first appear when the headers are read file after file in listing
    order; the first file's names so come first, in their order.  It has
    the rows of all files, labelled 0, 1, 2, ....  A column that some
    file lacks is what the engine's promotion rule makes of the files'
    contributions in listing order: a file's column of that name, or a
    gap of the file's number of rows. *)
Theorem load_data_unites_columns
        (promote : list (option Series * nat) -> Series)
        (fs : FileSystem) (data_path : string)
        (file0 : string) (files : list string)
        (df0 : DataFrame) (dfs : list DataFrame) :
  fs !! data_path = Some (Directory (file0 :: files)) ->
  Forall2 (fun file df =>
             fs !! path_join data_path file = Some (File (Ok df)))
          (file0 :: files) (df0 :: dfs) ->
  Forall (fun df => NoDup (names df)) (df0 :: dfs) ->
  exists data,
    load_data promote fs data_path =
      (Ok data, full_log data_path (file0 :: files)) /\
    nrows data = sum_list (nrows <$> df0 :: dfs) /\
    index data = seqZ 0 (Z.of_nat (nrows data)) /\
    names data = first_occurrences (mjoin (names <$> df0 :: dfs)) /\
    NoDup (names data) /\
    names df0 `prefix_of` names data /\
    (forall c, c ∈ names data <-> exists df, df ∈ df0 :: dfs /\ c ∈ names df) /\
    (forall c ps,
        Forall2 (contributes c) (df0 :: dfs) ps ->
        Exists (fun p => is_Some p.1) ps ->
        Exists (fun p => p.1 = None) ps ->
        (c, promote ps) ∈ columns data).
Proof.
  intros Hdir Hfiles Hdfs.
  set (objs := df0 :: dfs) in *.
  set (total := sum_list (nrows <$> objs)).
  exists {| index := seqZ 0 (Z.of_nat total);
            columns := map (fun c => (c, stack promote (piece c <$> objs)))
                           (union_names objs) |}.
  assert (forall l : list string,
            (map (fun c => (c, stack promote (piece c <$> objs))) l).*1 = l)
    as Hfst.
  { intros l. rewrite <- list_fmap_compose. rewrite <- (list_fmap_id l) at 2.
    by apply list_fmap_ext. }
  assert (union_names objs =
          foldl (fun acc df => acc ++ filter (fun c => c ∉ acc) (names df))
                (names df0) dfs) as Hunion.
  { unfold union_names, objs. cbn [foldl].
    by rewrite filter_not_in_nil, app_nil_l. }
  assert (forall c, c ∈ union_names objs <->
                    exists df, df ∈ objs /\ c ∈ names df) as Helem.
  { intros c. rewrite Hunion, union_fold_elem. unfold objs. split.
    - intros [?|(df & ? & ?)].
      + exists df0. split; [left | done].
      + exists df. split; [by right | done].
    - intros (df & [->|?]%elem_of_cons & ?); eauto. }
  split; [|split; [|split; [|split; [|split; [|split; [|split]]]]]].
  - unfold load_data, path_exists, listdir. rewrite Hdir.
    rewrite bool_decide_eq_true_2 by eauto. simpl negb. cbv iota.
    rewrite (load_loop_spec fs data_path (file0 :: files) objs Hfiles).
    by rewrite app_nil_l.
  - unfold nrows at 1; cbn [index]. rewrite length_seqZ. lia.
  - unfold nrows at 1. cbn [index]. by rewrite length_seqZ, Z2Nat.id by lia.
  - unfold names at 1. cbn [columns]. rewrite Hfst.
    unfold union_names, first_occurrences. by rewrite union_fold_unseen.
  - unfold names. cbn [columns]. rewrite Hfst, Hunion.
    apply Forall_cons in Hdfs as [Hdf0 Hdfs]. by apply union_fold_NoDup.
  - unfold names at 2. cbn [columns]. rewrite Hfst, Hunion.
    apply union_fold_prefix.
  - intros c. unfold names at 1. cbn [columns]. by rewrite Hfst.
  - intros c ps Hps Hsome Hgap. cbn [columns].
    apply list_elem_of_fmap. exists c. split.
    + rewrite (pieces_contributed c objs ps) by done.
      unfold stack. by rewrite stack_alike_gap.
    + apply Helem. apply Exists_exists in Hsome as (p & Hp & [s Hs]).
      apply list_elem_of_lookup in Hp as [i Hi].
      destruct (Forall2_lookup_r _ _ _ _ _ Hps Hi) as (df & Hdf & _ & Hc).
      rewrite Hs in Hc. exists df. split; [by eapply list_elem_of_lookup_2|].
      apply list_elem_of_fmap. by exists (c, s).
Qed.

Lemma load_data_unites_columns_witness :
  exists data,
    load_data sample_promote sample_fs_more "mixed" =
      (Ok data, full_log "mixed" ["jan.tsv"; "mar.tsv"]) /\
    nrows data = sum_list (nrows <$> [sample_january; sample_march]) /\
    index data = seqZ 0 (Z.of_nat (nrows data)) /\
    names data =
      first_occurrences (mjoin (names <$> [sample_january; sample_march])) /\
    NoDup (names data) /\
    names sample_january `prefix_of` names data /\
    (forall c, c ∈ names data <->
               exists df, df ∈ [sample_january; sample_march] /\ c ∈ names df) /\
    (forall c ps,
        Forall2 (contributes c) [sample_january; sample_march] ps ->
        Exists (fun p => is_Some p.1) ps ->
        Exists (fun p => p.1 = None) ps ->
        (c, sample_promote ps) ∈ columns data).
Proof.
  apply (load_data_unites_columns sample_promote).
  - reflexivity.
  - repeat (constructor; [reflexivity|]). constructor.
  - repeat apply Forall_cons_2; [| |apply Forall_nil_2];
      apply (bool_decide_unpack _); vm_compute; reflexivity.
Defined.

Lemma stack_single promote s (rows : nat) :
  stack promote [(Some s, rows)] = s.
Proof. done. Qed.

(** The columns of a table, made again from its names and its pieces. *)
Lemma columns_from_pieces promote df :
  NoDup (names df) ->
  map (fun c => (c, stack promote (piece c <$> [df]))) (names df) = columns df.
Proof.
  intros Hnodup. unfold names. rewrite <- list_fmap_compose.
  rewrite <- (list_fmap_id (columns df)) at 2.
  apply list_fmap_ext. intros i [c s] Hi%list_elem_of_lookup_2. simpl.
  by rewrite (piece_present c s df Hnodup Hi).
Qed.

(** X12. From a directory with one file [load_data] returns that file's
    table: the same columns with the same values, the rows labelled
    0, 1, 2, .... *)
Theorem load_data_single_file (promote : list (option Series * nat) -> Series)
        (fs : FileSystem) (data_path file : string) (df : DataFrame) :
  fs !! data_path = Some (Directory [file]) ->
  fs !! path_join data_path file = Some (File (Ok df)) ->
  NoDup (names df) ->
  load_data promote fs data_path =
  (Ok {| index := seqZ 0 (Z.of_nat (nrows df)); columns := columns df |},
   [ListDir data_path; ReadCsv (path_join data_path file)]).
Proof.
  intros Hdir Hfile Hnodup. unfold load_data, path_exists, listdir.
  rewrite Hdir. rewrite bool_decide_eq_true_2 by eauto. simpl negb. cbv iota.
  rewrite (load_loop_spec fs data_path [file] [df])
    by (constructor; [done | constructor]).
  rewrite !app_nil_l. cbn [fmap list_fmap app mbind result_bind].
  unfold concat, union_names. cbn [foldl].
  rewrite filter_not_in_nil, app_nil_l, columns_from_pieces by done.
  cbn [fmap list_fmap sum_list sum_list_with]. by rewrite Nat.add_0_r.
Qed.

Lemma load_data_single_file_witness :
  load_data sample_promote sample_fs_more "single" =
  (Ok {| index := seqZ 0 (Z.of_nat (nrows sample_january));
         columns := columns sample_january |},
   [ListDir "single"; ReadCsv (path_join "single" "jan.tsv")]).
Proof.
  apply (load_data_single_file sample_promote sample_fs_more "single"
           "jan.tsv" sample_january); try reflexivity.
  apply (bool_decide_unpack _). vm_compute. reflexivity.
Defined.

(** ** Rounding into a format *)

Lemma digits2_pos_size m : digits2_pos m = Pos.size m.
Proof. induction m as [m IH|m IH|]; simpl; by rewrite ?IH. Qed.

Lemma Zdigits2_log2 m : 0 < m -> Zdigits2 m = Z.log2 m + 1.
Proof.
  destruct m as [|p|p]; try lia. intros _. simpl.
  rewrite digits2_pos_size. destruct p; simpl; lia.
Qed.

Lemma Zdigits2_0 : Zdigits2 0 = 0.
Proof. done. Qed.

Lemma Zdigits2_bounds m :
  0 < m -> 2 ^ (Zdigits2 m - 1) <= m < 2 ^ Zdigits2 m.
Proof.
  intros Hm. rewrite Zdigits2_log2 by done.
  replace (Z.log2 m + 1 - 1) with (Z.log2 m) by lia.
  replace (Z.log2 m + 1) with (Z.succ (Z.log2 m)) by lia.
  by apply Z.log2_spec.
Qed.

Lemma Zdigits2_unique m d :
  0 < d -> 2 ^ (d - 1) <= m < 2 ^ d -> Zdigits2 m = d.
Proof.
  intros Hd Hm.
  assert (0 < m) by (assert (0 < 2 ^ (d - 1)) by (apply Z.pow_pos_nonneg; lia); lia).
  rewrite Zdigits2_log2 by done.
  rewrite (Z.log2_unique m (d - 1)); [lia | lia |].
  by replace (Z.succ (d - 1)) with d by lia.
Qed.

Lemma Zdigits2_pos m : 0 < m -> 0 < Zdigits2 m.
Proof. intros Hm. rewrite Zdigits2_log2 by done. pose proof (Z.log2_nonneg m). lia. Qed.

Lemma shr_1_spec m r s :
  0 <= m ->
  shr_1 {| shr_m := m; shr_r := r; shr_s := s |} =
  {| shr_m := m / 2; shr_r := Z.odd m; shr_s := r || s |}.
Proof.
  intros Hm. destruct m as [|[p|p|]|p]; try lia; simpl; f_equal.
  - rewrite Pos2Z.inj_xI.
    apply (Z.div_unique _ _ _ 1); lia.
  - rewrite Pos2Z.inj_xO. apply (Z.div_unique _ _ _ 0); lia.
Qed.


Lemma mod_pow2_split m a b :
  0 <= a -> 0 <= b ->
  m mod 2 ^ (a + b) = 0 <-> m mod 2 ^ a = 0 /\ (m / 2 ^ a) mod 2 ^ b = 0.
Proof.
  intros Ha Hb.
  assert (0 < 2 ^ a) by (apply Z.pow_pos_nonneg; lia).
  assert (0 < 2 ^ b) by (apply Z.pow_pos_nonneg; lia).
  rewrite Z.pow_add_r, Z.rem_mul_r by lia.
  pose proof (Z.mod_pos_bound m (2 ^ a)).
  pose proof (Z.mod_pos_bound (m / 2 ^ a) (2 ^ b)).
  nia.
Qed.

Lemma shifts_shr_1 : shifts shr_1 1.
Proof.
  intros m r s Hm. exists (Z.odd m), (r || s).
  split; [by apply shr_1_spec|].
  rewrite Z.pow_1_r, Zmod_odd.
  destruct (Z.odd m); simpl; [split; [done | intros [_ ?]; lia] | tauto].
Qed.

Lemma shifts_compose f g a b :
  0 <= a -> 0 <= b -> shifts f a -> shifts g b ->
  shifts (fun x => g (f x)) (a + b).
Proof.
  intros Ha Hb Hf Hg m r s Hm.
  destruct (Hf m r s Hm) as (r1 & s1 & -> & H1).
  assert (0 <= m / 2 ^ a) by (apply Z.div_pos; [done | apply Z.pow_pos_nonneg; lia]).
  destruct (Hg (m / 2 ^ a) r1 s1) as (r2 & s2 & -> & H2); [done|].
  exists r2, s2. split.
  - f_equal. rewrite Z.pow_add_r, Z.div_div by (try apply Z.pow_pos_nonneg; lia). done.
  - rewrite H2, H1, (mod_pow2_split m a b) by done. tauto.
Qed.

Lemma shifts_iter_pos n : shifts (SpecFloat.iter_pos shr_1 n) (Zpos n).
Proof.
  induction n as [n IH|n IH|]; simpl.
  - rewrite Pos2Z.inj_xI. replace (2 * Z.pos n + 1) with (1 + Z.pos n + Z.pos n) by lia.
    apply (shifts_compose (fun x => SpecFloat.iter_pos shr_1 n (shr_1 x))); [lia|lia| |done].
    apply (shifts_compose shr_1); [lia|lia| |done]. apply shifts_shr_1.
  - rewrite Pos2Z.inj_xO. replace (2 * Z.pos n) with (Z.pos n + Z.pos n) by lia.
    by apply (shifts_compose (SpecFloat.iter_pos shr_1 n)); [lia|lia| |].
  - apply shifts_shr_1.
Qed.

Lemma shr_spec m e n :
  0 <= m ->
  exists r s,
    shr {| shr_m := m; shr_r := false; shr_s := false |} e n =
      ({| shr_m := m / 2 ^ Z.max 0 n; shr_r := r; shr_s := s |}, e + Z.max 0 n) /\
    (r || s = false <-> m mod 2 ^ Z.max 0 n = 0).
Proof.
  intros Hm. destruct n as [|p|p]; simpl.
  - exists false, false. rewrite Z.div_1_r, Z.add_0_r, Z.mod_1_r. done.
  - destruct (shifts_iter_pos p m false false Hm) as (r & s & -> & Hrs).
    exists r, s. split; [done|]. rewrite Hrs. simpl. tauto.
  - exists false, false. rewrite Z.div_1_r, Z.add_0_r, Z.mod_1_r. done.
Qed.

Lemma round_nearest_even_bounds m l :
  m <= round_nearest_even m l <= m + 1.
Proof. destruct l as [|[]]; simpl; try lia. destruct (Z.even m); lia. Qed.

Lemma div_pow2_digits m n :
  0 < m -> 0 <= n < Zdigits2 m ->
  0 < m / 2 ^ n /\ Zdigits2 (m / 2 ^ n) = Zdigits2 m - n.
Proof.
  intros Hm Hn. pose proof (Zdigits2_bounds m Hm) as [Hlo Hhi].
  assert (0 < 2 ^ n) by (apply Z.pow_pos_nonneg; lia).
  assert (2 ^ (Zdigits2 m - n - 1) <= m / 2 ^ n < 2 ^ (Zdigits2 m - n)) as Hq.
  { split.
    - apply Z.div_le_lower_bound; [done|].
      rewrite <- Z.pow_add_r by lia.
      by replace (n + (Zdigits2 m - n - 1)) with (Zdigits2 m - 1) by lia.
    - apply Z.div_lt_upper_bound; [done|].
      rewrite <- Z.pow_add_r by lia.
      by replace (n + (Zdigits2 m - n)) with (Zdigits2 m) by lia. }
  split.
  - assert (0 < 2 ^ (Zdigits2 m - n - 1)) by (apply Z.pow_pos_nonneg; lia). lia.
  - apply Zdigits2_unique; [lia | done].
Qed.

Lemma div_pow2_small m n :
  0 < m -> Zdigits2 m <= n -> m / 2 ^ n = 0.
Proof.
  intros Hm Hn. pose proof (Zdigits2_bounds m Hm) as [_ Hhi].
  pose proof (Zdigits2_pos m Hm).
  apply Z.div_small. split; [lia|].
  assert (2 ^ Zdigits2 m <= 2 ^ n) by (apply Z.pow_le_mono_r; lia). lia.
Qed.

Section rounding.
Variables prec emax : Z.
Hypothesis Hprec : 0 < prec.

Lemma fexp_eq x : fexp prec emax x = Z.max (x - prec) (3 - emax - prec).
Proof. done. Qed.

Lemma round_shape mz ez e1 n1 m1' n2 :
  0 < mz ->
  e1 = fexp prec emax (Zdigits2 mz + ez) ->
  n1 = e1 - ez ->
  0 <= n1 ->
  mz / 2 ^ n1 <= m1' <= mz / 2 ^ n1 + 1 ->
  n2 = Z.max 0 (fexp prec emax (Zdigits2 m1' + e1) - e1) ->
  m1' / 2 ^ n2 = 0 \/
  (0 < m1' / 2 ^ n2 /\
   fexp prec emax (Zdigits2 (m1' / 2 ^ n2) + (e1 + n2)) = e1 + n2 /\
   (n2 = 0 \/ (n2 = 1 /\ m1' = 2 ^ prec))).
Proof.
  rewrite !fexp_eq. intros Hmz He1 Hn1 Hn1pos Hm1' Hn2.
  pose proof (Zdigits2_pos mz Hmz) as Hdz.
  destruct (Z_lt_le_dec n1 (Zdigits2 mz)) as [Hlt|Hge].
  - destruct (div_pow2_digits mz n1 Hmz) as [Hm1 Hd1]; [lia|].
    pose proof (Zdigits2_bounds _ Hm1) as [Hlo Hhi]. rewrite Hd1 in Hlo, Hhi.
    remember (Zdigits2 mz - n1) as d1 eqn:Hd1eq.
    assert (1 <= d1 <= prec) by lia.
    destruct (Z_lt_le_dec m1' (2 ^ d1)) as [Hsmall|Hcarry].
    + assert (Zdigits2 m1' = d1) as Hd' by (apply Zdigits2_unique; lia).
      rewrite Hd' in Hn2. assert (n2 = 0) as -> by lia.
      rewrite Z.pow_0_r, Z.div_1_r, Z.add_0_r, Hd'. right. lia.
    + assert (m1' = 2 ^ d1) as Hm' by lia.
      assert (Zdigits2 m1' = d1 + 1) as Hd'.
      { apply Zdigits2_unique; [lia|].
        replace (d1 + 1 - 1) with d1 by lia.
        rewrite (Z.pow_add_r 2 d1 1) by lia. lia. }
      rewrite Hd' in Hn2.
      destruct (Z_le_gt_dec (3 - emax - prec) (Zdigits2 mz + ez - prec))
        as [Hnormal|Hsub].
      * assert (d1 = prec) as Hd1p by lia.
        assert (n2 = 1) as -> by lia.
        assert (m1' / 2 ^ 1 = 2 ^ (prec - 1)) as ->.
        { rewrite Hm', Hd1p. replace prec with (1 + (prec - 1)) at 1 by lia.
          rewrite Z.pow_add_r by lia. rewrite Z.mul_comm, Z.div_mul; lia. }
        assert (0 < 2 ^ (prec - 1)) by (apply Z.pow_pos_nonneg; lia).
        right. split; [done|]. split; [|right; split; [done | by rewrite Hm', Hd1p]].
        rewrite (Zdigits2_unique (2 ^ (prec - 1)) prec).
        -- lia.
        -- lia.
        -- split; [lia|]. apply Z.pow_lt_mono_r; lia.
      * assert (n2 = 0) as -> by lia.
        rewrite Z.pow_0_r, Z.div_1_r, Z.add_0_r, Hd'. right.
        split; [lia|]. split; [lia | by left].
  - rewrite (div_pow2_small mz n1 Hmz Hge) in Hm1'.
    destruct (decide (m1' = 0)) as [->|Hne].
    + left. apply Z.div_0_l. apply Z.pow_nonzero; lia.
    + assert (m1' = 1) as -> by lia. change (Zdigits2 1) with 1 in Hn2.
      assert (n2 = 0) as -> by lia.
      rewrite Z.pow_0_r, Z.div_1_r, Z.add_0_r. change (Zdigits2 1) with 1.
      right. lia.
Qed.

(** What [binary_round_aux] computes on an aligned mantissa: two shifts
    around one rounding step. *)
Lemma binary_round_aux_spec sx mz ez e1 :
  0 < mz ->
  e1 = fexp prec emax (Zdigits2 mz + ez) ->
  ez <= e1 ->
  exists m1' n2,
    mz / 2 ^ (e1 - ez) <= m1' <= mz / 2 ^ (e1 - ez) + 1 /\
    (mz mod 2 ^ (e1 - ez) = 0 -> m1' = mz / 2 ^ (e1 - ez)) /\
    n2 = Z.max 0 (fexp prec emax (Zdigits2 m1' + e1) - e1) /\
    binary_round_aux prec emax sx mz ez loc_Exact =
      match m1' / 2 ^ n2 with
      | 0 => S754_zero sx
      | Zpos m =>
          if e1 + n2 <=? emax - prec then S754_finite sx m (e1 + n2)
          else S754_infinity sx
      | Zneg _ => S754_nan
      end.
Proof.
  intros Hmz He1 Hez. unfold binary_round_aux, shr_fexp.
  cbn [shr_record_of_loc]. rewrite <- He1.
  destruct (shr_spec mz ez (e1 - ez)) as (r & s & -> & Hrs); [lia|].
  rewrite Z.max_r in * by lia. cbn [shr_m].
  replace (ez + (e1 - ez)) with e1 by lia.
  set (m1 := mz / 2 ^ (e1 - ez)) in *.
  assert (0 <= m1) by (apply Z.div_pos; [lia | apply Z.pow_pos_nonneg; lia]).
  set (m1' := round_nearest_even m1 _).
  pose proof (round_nearest_even_bounds m1
                (loc_of_shr_record {| shr_m := m1; shr_r := r; shr_s := s |}))
    as Hbounds. fold m1' in Hbounds.
  destruct (shr_spec m1' e1 (fexp prec emax (Zdigits2 m1' + e1) - e1))
    as (r2 & s2 & -> & _); [lia|].
  exists m1', (Z.max 0 (fexp prec emax (Zdigits2 m1' + e1) - e1)).
  split; [done | split; [|split; [done|]]].
  - intros Hexact. apply Hrs in Hexact. apply orb_false_iff in Hexact as [-> ->].
    done.
  - cbn [shr_m]. done.
Qed.

Lemma binary_round_aux_valid sx mz ez :
  0 < mz -> ez <= fexp prec emax (Zdigits2 mz + ez) ->
  valid_binary prec emax (binary_round_aux prec emax sx mz ez loc_Exact) = true.
Proof.
  intros Hmz Hez.
  destruct (binary_round_aux_spec sx mz ez _ Hmz eq_refl Hez)
    as (m1' & n2 & Hm1' & _ & Hn2 & ->).
  destruct (round_shape mz ez _ _ m1' n2 Hmz eq_refl eq_refl) as [->|Hshape];
    [lia | done | done | done |].
  destruct Hshape as (Hpos & Hcanon & _).
  destruct (m1' / 2 ^ n2) as [|m|m]; [done| |done].
  destruct (_ <=? _) eqn:Hle; [|done]. simpl.
  unfold bounded, canonical_mantissa. rewrite Hle, andb_true_r.
  by apply Z.eqb_eq.
Qed.

Lemma Pos_iter_xO m d : Zpos (Pos.iter xO m d) = Zpos m * 2 ^ Zpos d.
Proof.
  induction d as [|d IH] using Pos.peano_ind.
  - simpl. lia.
  - rewrite Pos.iter_succ, Pos2Z.inj_xO, IH, Pos2Z.inj_succ, Z.pow_succ_r by lia.
    lia.
Qed.

Lemma shl_align_spec m e e' :
  exists mz ez,
    shl_align m e e' = (mz, ez) /\
    ez = Z.min e e' /\ Zpos mz = Zpos m * 2 ^ (e - ez).
Proof.
  unfold shl_align. destruct (e' - e) as [|d|d] eqn:Hd.
  - exists m, e. rewrite Z.min_l, Z.sub_diag by lia. split; [done|]. lia.
  - exists m, e. rewrite Z.min_l, Z.sub_diag by lia. split; [done|]. lia.
  - exists (Pos.iter xO m d), e'. rewrite Z.min_r by lia.
    split; [done | split; [done|]]. rewrite Pos_iter_xO. f_equal. f_equal. lia.
Qed.

Lemma Zdigits2_mul_pow2 m k :
  0 < m -> 0 <= k -> Zdigits2 (m * 2 ^ k) = Zdigits2 m + k.
Proof.
  intros Hm Hk. pose proof (Zdigits2_bounds m Hm) as [Hlo Hhi].
  pose proof (Zdigits2_pos m Hm).
  assert (0 < 2 ^ k) by (apply Z.pow_pos_nonneg; lia).
  apply Zdigits2_unique; [lia|].
  replace (Zdigits2 m + k - 1) with ((Zdigits2 m - 1) + k) by lia.
  rewrite !Z.pow_add_r by lia. nia.
Qed.

(** The aligned mantissa [binary_round] hands on. *)
Lemma binary_round_aligned sx m e :
  exists mz ez,
    binary_round prec emax sx m e =
      binary_round_aux prec emax sx (Zpos mz) ez loc_Exact /\
    ez = Z.min e (fexp prec emax (Zdigits2 (Zpos m) + e)) /\
    Zpos mz = Zpos m * 2 ^ (e - ez) /\
    Zdigits2 (Zpos mz) + ez = Zdigits2 (Zpos m) + e.
Proof.
  unfold binary_round.
  destruct (shl_align_spec m e (fexp prec emax (Zpos (digits2_pos m) + e)))
    as (mz & ez & -> & Hez & Hmz).
  exists mz, ez. split; [done | split; [done | split; [done|]]].
  rewrite Hmz, Zdigits2_mul_pow2 by lia. lia.
Qed.

Lemma binary_round_valid sx m e :
  valid_binary prec emax (binary_round prec emax sx m e) = true.
Proof.
  destruct (binary_round_aligned sx m e) as (mz & ez & -> & Hez & _ & Hd).
  apply binary_round_aux_valid; [lia|]. rewrite Hd. lia.
Qed.

Lemma binary_normalize_valid m e szero :
  valid_binary prec emax (binary_normalize prec emax m e szero) = true.
Proof. destruct m; [done | apply binary_round_valid..]. Qed.

(** Rounding a number never gives a NaN. *)
Lemma binary_round_not_nan sx m e :
  is_nan (binary_round prec emax sx m e) = false.
Proof.
  destruct (binary_round_aligned sx m e) as (mz & ez & -> & Hez & _ & Hd).
  destruct (binary_round_aux_spec sx (Zpos mz) ez _ eq_refl eq_refl)
    as (m1' & n2 & Hm1' & _ & Hn2 & ->); [rewrite Hd; lia|].
  destruct (round_shape (Zpos mz) ez _ _ m1' n2 eq_refl eq_refl eq_refl)
    as [->|(Hpos & _)]; [rewrite Hd; lia | done | done | done |].
  destruct (m1' / 2 ^ n2) as [|p|p]; [done| |lia].
  by destruct (_ <=? _).
Qed.

Hypothesis Hemax : prec < emax.

(** A value within the format's range does not round to an infinity. *)
Lemma binary_round_finite sx m e :
  ext_le (EFin (Zpos m) e) (EFin (2 ^ prec - 1) (emax - prec)) = true ->
  is_finite (binary_round prec emax sx m e) = true.
Proof.
  intros Hle.
  destruct (binary_round_aligned sx m e) as (mz & ez & -> & Hez & Hmz & Hd).
  set (e1 := fexp prec emax (Zdigits2 (Zpos mz) + ez)).
  assert (ez <= e1) as Hez1 by (unfold e1; rewrite Hd; lia).
  destruct (binary_round_aux_spec sx (Zpos mz) ez e1)
    as (m1' & n2 & Hm1' & Hexact & Hn2 & ->); [lia | done | done |].
  destruct (round_shape (Zpos mz) ez e1 (e1 - ez) m1' n2)
    as [->|(Hpos & _ & Hcases)]; [lia | done | done | lia | done | done | done |].
  destruct (m1' / 2 ^ n2) as [|p|p]; [done| |lia].
  assert (e1 + n2 <= emax - prec) as Hfinite; [|by apply Z.leb_le in Hfinite as ->].
  pose proof (Zdigits2_bounds (Zpos m) eq_refl) as [Hdlo _].
  pose proof (Zdigits2_pos (Zpos m) eq_refl) as Hdpos.
  assert (0 < 2 ^ prec) by (apply Z.pow_pos_nonneg; lia).
  assert (Zdigits2 (Zpos m) + e <= emax) as HD.
  { apply (ext_le_EFin _ _ _ _ (Z.min e (emax - prec))) in Hle; [|lia..].
    set (a := e - Z.min e (emax - prec)) in *.
    set (b := emax - prec - Z.min e (emax - prec)) in *.
    assert (0 <= a /\ 0 <= b) as [? ?] by (unfold a, b; lia).
    destruct (Z_le_gt_dec (Zdigits2 (Zpos m) + e) emax) as [?|Hgt]; [done|].
    assert (2 ^ (prec + b) <= 2 ^ (Zdigits2 (Zpos m) - 1 + a)) as Hpow
        by (apply Z.pow_le_mono_r; unfold a, b; lia).
    rewrite !Z.pow_add_r in Hpow by lia.
    assert (0 < 2 ^ a) by (apply Z.pow_pos_nonneg; lia).
    assert (0 < 2 ^ b) by (apply Z.pow_pos_nonneg; lia).
    nia. }
  assert (e1 <= emax - prec) as He1.
  { unfold e1. rewrite Hd, fexp_eq. lia. }
  destruct Hcases as [->|[-> Hcarry]]; [lia|].
  destruct (Z_lt_le_dec e1 (emax - prec)) as [?|Htop]; [lia|].
  exfalso. assert (e1 = emax - prec) as Heq by lia.
  apply (ext_le_EFin _ _ _ _ ez) in Hle; [|lia..].
  rewrite <- Hmz, <- Heq in Hle.
  assert (0 < 2 ^ (e1 - ez)) by (apply Z.pow_pos_nonneg; lia).
  assert (Zpos mz / 2 ^ (e1 - ez) <= 2 ^ prec - 1) as Hm1
      by (apply Z.div_le_upper_bound; lia).
  pose proof (Z.div_mod (Zpos mz) (2 ^ (e1 - ez))) as Hdivmod.
  pose proof (Z.mod_pos_bound (Zpos mz) (2 ^ (e1 - ez))) as Hmod.
  assert (Zpos mz mod 2 ^ (e1 - ez) = 0) as Hzero by nia.
  specialize (Hexact Hzero). lia.
Qed.
End rounding.

Lemma float_prec_pos t : 0 < float_prec t.
Proof. by destruct t. Qed.

Lemma float_prec_emax t : float_prec t < float_emax t.
Proof. by destruct t. Qed.

(** A rounded value is a value of the format. *)
Lemma round_to_valid t f :
  valid_binary (float_prec t) (float_emax t) (round_to t f) = true.
Proof.
  destruct f as [| | |s m e]; try done. simpl.
  apply binary_normalize_valid, float_prec_pos.
Qed.

Lemma round_to_nan t f : is_nan (round_to t f) = is_nan f.
Proof.
  destruct f as [| | |s m e]; try done. simpl.
  destruct s; apply binary_round_not_nan, float_prec_pos.
Qed.

(** A finite value within the range of a format rounds to a finite
    value. *)
Lemma round_to_finite t f :
  is_finite f = true ->
  float_le (SFopp (float_max t)) f = true ->
  float_le f (float_max t) = true ->
  is_finite (round_to t f) = true.
Proof.
  destruct f as [| | |s m e]; try done. intros _.
  unfold float_le. destruct (float_max_ext t) as [-> ->].
  intros Hlo Hhi.
  assert (ext_le (EFin (Zpos m) e)
                 (EFin (2 ^ float_prec t - 1) (float_emax t - float_prec t)) = true)
    as Hle.
  { destruct s; [|exact Hhi]. simpl in Hlo.
    set (e0 := Z.min e (float_emax t - float_prec t)).
    apply (ext_le_EFin _ _ _ _ e0) in Hlo; [|unfold e0; lia..].
    apply (ext_le_EFin _ _ _ _ e0); [unfold e0; lia..|]. lia. }
  simpl. destruct s;
    apply binary_round_finite;
    auto using float_prec_pos, float_prec_emax.
Qed.

(** ** [downcast] keeps tables well formed *)

Lemma downcast_series_wf s : wf_Series s -> wf_Series (downcast_series s).
Proof.
  destruct s as [[t xs|t xs|xs]|cells]; [| |done|done]; intros Hwf.
  - assert (downcast_series (Numeric (Ints t xs)) =
              match narrowed (Ints t xs) with
              | Ok a' => Numeric a'
              | Raise _ => Numeric (Ints t xs)
              end) as -> by done.
    rewrite narrowed_Ints.
    destruct (get_downcast_type _ _ _) as [t'|e] eqn:Ht'; [|done].
    apply get_downcast_type_Ok in Ht' as (size & Hin & Hfit & _).
    apply map_int_lookup in Hin as (ti & -> & _).
    by apply (fits_holds_ints ti t xs) in Hfit as [_ ?].
  - assert (downcast_series (Numeric (Floats t xs)) =
              match narrowed (Floats t xs) with
              | Ok a' => Numeric a'
              | Raise _ => Numeric (Floats t xs)
              end) as -> by done.
    rewrite narrowed_catalog. cbn [catalog].
    destruct (get_downcast_type _ _ _) as [t'|e] eqn:Ht'; [|done].
    apply get_downcast_type_Ok in Ht' as (size & Hin & _).
    apply map_float_lookup in Hin as (tf & -> & _).
    cbn [mbind result_bind]. rewrite astype_Floats. simpl.
    destruct (decide (t = tf)) as [<-|_]; [done|].
    apply Forall_forall. intros y (x & -> & _)%list_elem_of_fmap.
    apply round_to_valid.
Qed.

(** X13. [downcast] keeps a well-formed table well formed: every column
    still has one value per row, the values of an integer column lie in
    the range of its new dtype, and the values of a floating-point
    column are values of its new format. *)
Theorem downcast_keeps_well_formed (df : DataFrame) :
  wf_DataFrame df ->
  exists df', downcast df = Ok df' /\ wf_DataFrame df'.
Proof.
  intros Hwf. exists (downcast_result df). split; [apply downcast_spec|].
  unfold wf_DataFrame, downcast_result, narrow_where in *. cbn [columns].
  apply Forall_forall. intros p' (p & -> & Hp)%list_elem_of_fmap.
  rewrite Forall_forall in Hwf. destruct (Hwf p Hp) as [Hlen Hs].
  unfold nrows in *. cbn [index].
  case_decide; [|done]. cbn [snd].
  split; [by rewrite downcast_series_length | by apply downcast_series_wf].
Qed.

Lemma downcast_keeps_well_formed_witness :
  exists df', downcast sample_tenth = Ok df' /\ wf_DataFrame df'.
Proof.
  apply (downcast_keeps_well_formed sample_tenth). wf_by_computation.
Defined.

(** ** Missing and finite values *)

Lemma holds_floats_round tf xs :
  holds_floats tf xs ->
  Forall2 (fun x y => is_nan y = is_nan x /\ is_finite y = is_finite x)
          xs (map (round_to tf) xs).
Proof.
  intros [_ Hall]. apply Forall2_fmap_r, Forall_Forall2_diag, Forall_forall.
  intros x Hx. split; [apply round_to_nan|].
  destruct (is_nan x) eqn:Hnan; [by destruct x|].
  destruct (Hall x Hx Hnan) as [Hlo Hhi].
  assert (is_finite x = true) as Hfin.
  { destruct x as [|[]| |]; try done; destruct tf; discriminate. }
  by rewrite Hfin, round_to_finite.
Qed.

(** X14. The conversion of a floating-point column loses no value to an
    infinity or a NaN: after [downcast] the column has a missing value
    exactly where it had one and a finite value exactly where it had
    one. *)
Theorem downcast_keeps_missing_and_finite (df : DataFrame) (i : nat)
        (n : string) (t : float_type) (xs : list spec_float) :
  columns df !! i = Some (n, Numeric (Floats t xs)) ->
  exists df' t' ys,
    downcast df = Ok df' /\
    columns df' !! i = Some (n, Numeric (Floats t' ys)) /\
    Forall2 (fun x y => is_nan y = is_nan x /\ is_finite y = is_finite x) xs ys.
Proof.
  intros Hi.
  assert (Forall2 (fun x y => is_nan y = is_nan x /\ is_finite y = is_finite x)
                  xs xs) as Hsame
      by (by apply Forall_Forall2_diag, Forall_forall).
  destruct (downcast_result_column df i n _ Hi) as (s' & Hi' & [-> | ->]).
  { exists (downcast_result df), t, xs. by split; [apply downcast_spec|]. }
  assert (downcast_series (Numeric (Floats t xs)) =
            match narrowed (Floats t xs) with
            | Ok a' => Numeric a'
            | Raise _ => Numeric (Floats t xs)
            end) as Hds by done.
  rewrite narrowed_catalog in Hds. cbn [catalog] in Hds.
  destruct (get_downcast_type _ _ _) as [t'|e] eqn:Ht'.
  - apply get_downcast_type_Ok in Ht' as (size & Hin & Hfit & _).
    apply map_float_lookup in Hin as (tf & -> & _).
    cbn [mbind result_bind] in Hds. rewrite astype_Floats in Hds.
    apply (fits_holds_floats tf t xs) in Hfit.
    exists (downcast_result df), tf,
      (if decide (t = tf) then xs else map (round_to tf) xs).
    split; [apply downcast_spec | split; [by rewrite Hi', Hds|]].
    case_decide; [done | by apply holds_floats_round].
  - exists (downcast_result df), t, xs.
    split; [apply downcast_spec | split; [by rewrite Hi', Hds | done]].
Qed.

Lemma downcast_keeps_missing_and_finite_witness :
  exists df' t' ys,
    downcast sample_tenth = Ok df' /\
    columns df' !! 0%nat = Some ("rate", Numeric (Floats t' ys)) /\
    Forall2 (fun x y => is_nan y = is_nan x /\ is_finite y = is_finite x)
            [tenth] ys.
Proof.
  apply (downcast_keeps_missing_and_finite sample_tenth 0 "rate" float64 [tenth]).
  reflexivity.
Defined.

(** ** Values a format holds exactly *)

Section exact.
Variables prec emax : Z.

(** A number that is a value of the format rounds to that value. *)
Lemma binary_round_exact sx m e mg eg :
  bounded prec emax mg eg = true ->
  Zpos m * 2 ^ (e - Z.min e eg) = Zpos mg * 2 ^ (eg - Z.min e eg) ->
  binary_round prec emax sx m e = S754_finite sx mg eg.
Proof.
  intros [Hcanon Hbound]%andb_true_iff Hvalue.
  unfold canonical_mantissa in Hcanon. apply Z.eqb_eq in Hcanon.
  change (Zpos (digits2_pos mg)) with (Zdigits2 (Zpos mg)) in Hcanon.
  assert (Zdigits2 (Zpos m) + e = Zdigits2 (Zpos mg) + eg) as HD.
  { apply (f_equal Zdigits2) in Hvalue.
    rewrite !Zdigits2_mul_pow2 in Hvalue by lia. lia. }
  destruct (binary_round_aligned prec emax sx m e) as (mz & ez & -> & Hez & Hmz & Hd).
  rewrite HD, Hcanon in Hez.
  assert (Zpos mz = Zpos mg * 2 ^ (eg - ez)) as Hmz'.
  { rewrite Hmz, Hez.
    destruct (Z.min_spec e eg) as [[Hlt Hmin]|[Hge Hmin]]; rewrite Hmin in *.
    - rewrite Z.sub_diag, Z.pow_0_r, Z.mul_1_r in *. done.
    - rewrite Z.sub_diag, Z.pow_0_r, Z.mul_1_r in *. done. }
  assert (fexp prec emax (Zdigits2 (Zpos mz) + ez) = eg) as He1
      by (by rewrite Hd, HD).
  destruct (binary_round_aux_spec prec emax sx (Zpos mz) ez eg)
    as (m1' & n2 & _ & Hexact & Hn2 & ->); [lia | done | lia |].
  assert (0 < 2 ^ (eg - ez)) by (apply Z.pow_pos_nonneg; lia).
  assert (Zpos mz / 2 ^ (eg - ez) = Zpos mg) as Hdiv
      by (rewrite Hmz'; apply Z.div_mul; lia).
  assert (m1' = Zpos mg) as ->.
  { rewrite Hexact; [done|]. rewrite Hmz'. apply Z.mod_mul. lia. }
  rewrite Hcanon in Hn2. assert (n2 = 0) as -> by lia.
  rewrite Z.pow_0_r, Z.div_1_r, Z.add_0_r. by rewrite Hbound.
Qed.
End exact.

Lemma same_number_refl x : is_nan x = false -> same_number x x.
Proof. intros Hx. split; by apply float_le_refl. Qed.

(** A value the format holds exactly is converted to the same number. *)
Lemma round_to_exact t x : representable t x -> same_number x (round_to t x).
Proof.
  intros (g & Hvalid & Hsame).
  destruct x as [sx|sx| |s m e]; try (by apply same_number_refl).
  { by destruct Hsame as [? _]. }
  assert (exists mg eg, g = S754_finite s mg eg /\
            Zpos m * 2 ^ (e - Z.min e eg) = Zpos mg * 2 ^ (eg - Z.min e eg))
    as (mg & eg & -> & Hvalue).
  { destruct Hsame as [H1 H2]. unfold float_le in H1, H2.
    destruct g as [sg|[]| |sg mg eg]; try (by destruct s).
    - simpl in H1, H2.
      apply (ext_le_EFin _ _ _ _ (Z.min e 0)) in H1; [|lia..].
      apply (ext_le_EFin _ _ _ _ (Z.min e 0)) in H2; [|lia..].
      assert (0 < 2 ^ (e - Z.min e 0)) by (apply Z.pow_pos_nonneg; lia).
      destruct s; simpl in *; nia.
    - simpl in H1, H2.
      apply (ext_le_EFin _ _ _ _ (Z.min e eg)) in H1; [|lia..].
      apply (ext_le_EFin _ _ _ _ (Z.min e eg)) in H2; [|lia..].
      assert (0 < 2 ^ (e - Z.min e eg)) by (apply Z.pow_pos_nonneg; lia).
      assert (0 < 2 ^ (eg - Z.min e eg)) by (apply Z.pow_pos_nonneg; lia).
      exists mg, eg. destruct s, sg; simpl in *; (split; [f_equal|]); nia. }
  assert (round_to t (S754_finite s m e) = S754_finite s mg eg) as ->; [|done].
  simpl in *. destruct s; by apply binary_round_exact.
Qed.

(** X15. A value that the new type of a floating-point column holds
    exactly is the same number after [downcast] as before. *)
Theorem downcast_keeps_representable (df : DataFrame) (i : nat) (n : string)
        (t : float_type) (xs : list spec_float) :
  columns df !! i = Some (n, Numeric (Floats t xs)) ->
  exists df' t' ys,
    downcast df = Ok df' /\
    columns df' !! i = Some (n, Numeric (Floats t' ys)) /\
    Forall2 (fun x y => representable t' x -> same_number x y) xs ys.
Proof.
  intros Hi.
  assert (forall t', Forall2 (fun x y => representable t' x -> same_number x y)
                             xs xs) as Hsame.
  { intros t'. apply Forall_Forall2_diag, Forall_forall.
    intros x _ (g & _ & Hle & _). apply same_number_refl.
    by destruct (float_le_not_nan _ _ Hle). }
  destruct (downcast_result_column df i n _ Hi) as (s' & Hi' & [-> | ->]).
  { exists (downcast_result df), t, xs. by split; [apply downcast_spec|]. }
  assert (downcast_series (Numeric (Floats t xs)) =
            match narrowed (Floats t xs) with
            | Ok a' => Numeric a'
            | Raise _ => Numeric (Floats t xs)
            end) as Hds by done.
  rewrite narrowed_catalog in Hds. cbn [catalog] in Hds.
  destruct (get_downcast_type _ _ _) as [t'|e] eqn:Ht'.
  - apply get_downcast_type_Ok in Ht' as (size & Hin & _).
    apply map_float_lookup in Hin as (tf & -> & _).
    cbn [mbind result_bind] in Hds. rewrite astype_Floats in Hds.
    exists (downcast_result df), tf,
      (if decide (t = tf) then xs else map (round_to tf) xs).
    split; [apply downcast_spec | split; [by rewrite Hi', Hds|]].
    case_decide; [done|].
    apply Forall2_fmap_r, Forall_Forall2_diag, Forall_forall.
    intros x _. exact (round_to_exact tf x).
  - exists (downcast_result df), t, xs.
    split; [apply downcast_spec | split; [by rewrite Hi', Hds | done]].
Qed.

Lemma downcast_keeps_representable_witness :
  exists df' t' ys,
    downcast sample_mixed = Ok df' /\
    columns df' !! 2%nat = Some ("score", Numeric (Floats t' ys)) /\
    Forall2 (fun x y => representable t' x -> same_number x y)
            [one_and_half; two_and_half] ys.
Proof.
  apply (downcast_keeps_representable sample_mixed 2 "score" float64
           [one_and_half; two_and_half]).
  reflexivity.
Defined.
